(** * Multi-goal episode generation (script/generate_multigoal_dataset.py)

    A shallow embedding of the dataset generator: difficulty-ratio parsing,
    the candidate-pair pre-filter, the two rejection-sampling loops, the
    chained multi-goal walk and episode assembly.

    Modelling conventions.
    - A Python [float] is a value of [float] below: an exact rational for a
      finite double, plus the two infinities and NaN.  Comparisons, NaN
      propagation and the infinities follow IEEE 754; rounding of finite
      results is not modelled.
    - Exceptions and unbounded [while] loops: a computation yields [Ok v],
      [Raise e], or [Starved] when a [while] loop is still running after
      [fuel] iterations.
    - Python's global [random] generator and the simulator are external;
      they are fields of a [World]. *)

From Stdlib Require Import List ZArith QArith Qabs Qround Lia String Bool Arith NArith.
From Stdlib Require Import DecimalString.
Import ListNotations.

Local Open Scope Z_scope.

(** ** Floats *)

Inductive float : Type :=
| Fin (q : Q)
| PInf
| NInf
| NaN.

Definition is_nan (x : float) : bool :=
  match x with NaN => true | _ => false end.

(** IEEE comparison: [None] when either side is NaN (unordered). *)
Definition fcmp (x y : float) : option comparison :=
  match x, y with
  | NaN, _ | _, NaN => None
  | Fin a, Fin b => Some (a ?= b)%Q
  | NInf, NInf | PInf, PInf => Some Eq
  | NInf, _ | _, PInf => Some Lt
  | PInf, _ | _, NInf => Some Gt
  end.

Definition flt (x y : float) : bool :=
  match fcmp x y with Some Lt => true | _ => false end.

Definition fle (x y : float) : bool :=
  match fcmp x y with Some Lt | Some Eq => true | _ => false end.

Definition fgt (x y : float) : bool := flt y x.

Definition fneg (x : float) : float :=
  match x with
  | Fin a => Fin (- a)
  | PInf => NInf
  | NInf => PInf
  | NaN => NaN
  end.

Definition fabs (x : float) : float :=
  match x with
  | Fin a => Fin (Qabs a)
  | PInf | NInf => PInf
  | NaN => NaN
  end.

Definition fadd (x y : float) : float :=
  match x, y with
  | NaN, _ | _, NaN => NaN
  | Fin a, Fin b => Fin (a + b)
  | PInf, NInf | NInf, PInf => NaN
  | PInf, _ | _, PInf => PInf
  | NInf, _ | _, NInf => NInf
  end.

Definition fsub (x y : float) : float := fadd x (fneg y).

(** The infinity carrying the sign of [a]; NaN for zero times infinity. *)
Definition signed_inf (a : Q) (pos neg : float) : float :=
  match (a ?= 0)%Q with Gt => pos | Lt => neg | Eq => NaN end.

Definition fmul (x y : float) : float :=
  match x, y with
  | NaN, _ | _, NaN => NaN
  | Fin a, Fin b => Fin (a * b)
  | Fin a, PInf | PInf, Fin a => signed_inf a PInf NInf
  | Fin a, NInf | NInf, Fin a => signed_inf a NInf PInf
  | PInf, PInf | NInf, NInf => PInf
  | PInf, NInf | NInf, PInf => NInf
  end.

(** IEEE division, as performed when the divisor is a numpy scalar: a zero
    divisor gives an infinity or NaN, not an exception. *)
Definition fdiv (x y : float) : float :=
  match x, y with
  | NaN, _ | _, NaN => NaN
  | Fin a, Fin b =>
      if Qeq_bool b 0 then signed_inf a PInf NInf else Fin (a / b)
  | Fin _, _ => Fin 0
  | PInf, Fin b => if Qle_bool 0 b then PInf else NInf
  | NInf, Fin b => if Qle_bool 0 b then NInf else PInf
  | _, _ => NaN
  end.

Definition of_int (n : Z) : float := Fin (inject_Z n).

(** ** Outcomes *)

Inductive exn : Type :=
| ValueError (msg : string)
| ZeroDivisionError
| OverflowError
| IndexError.

Inductive result (A : Type) : Type :=
| Ok (a : A)
| Raise (e : exn)
| Starved.

Arguments Ok {A} a.
Arguments Raise {A} e.
Arguments Starved {A}.

Definition rbind {A B} (r : result A) (k : A -> result B) : result B :=
  match r with
  | Ok a => k a
  | Raise e => Raise e
  | Starved => Starved
  end.

Fixpoint rmap {A B} (f : A -> result B) (l : list A) : result (list B) :=
  match l with
  | [] => Ok []
  | x :: l' =>
      rbind (f x) (fun y => rbind (rmap f l') (fun ys => Ok (y :: ys)))
  end.

(** Python's [x / y] on two Python floats. *)
Definition py_truediv (x y : float) : result float :=
  match y with
  | Fin b => if Qeq_bool b 0 then Raise ZeroDivisionError else Ok (fdiv x y)
  | _ => Ok (fdiv x y)
  end.

(** Python's [int(x)]: truncation toward zero. *)
Definition py_int (x : float) : result Z :=
  match x with
  | Fin q => Ok (Z.quot (Qnum q) (Zpos (Qden q)))
  | NaN => Raise (ValueError "cannot convert float NaN to integer")
  | PInf | NInf => Raise OverflowError
  end.

(** Python's [sum(xs)]: left fold of [+] from the integer 0. *)
Definition py_sum (xs : list float) : float :=
  fold_left fadd xs (of_int 0).

(** ** Module constants *)

Definition DIFFICULTIES : list string :=
  ["very easy"; "easy"; "medium"; "hard"]%string.

Definition DIFFICULTY_BOUNDS : list float :=
  [Fin 1; Fin 3; Fin 7; Fin 13; Fin 20].

Definition MIN_DIST_RATIO : float := Fin (11 # 10).
Definition MIN_ISLAND_RADIUS : float := Fin (15 # 10).
Definition EPS : float := Fin (1 # 100000).

(** ** Command-line arguments

    [difficulty_ratios] holds the list built on the first line of
    [parse_difficulty_ratios]: the argument split on commas, each piece
    converted by [float()]. *)

Record Args : Type := {
  n_episodes : Z;
  n_goals_per_ep : Z;
  difficulty_ratios : list float;
  seed : Z
}.

(** One entry of the dictionary returned by [parse_difficulty_ratios]:
    the key and the tuple (count, min_d, max_d). *)
Definition bucket : Type := (string * (Z * float * float))%type.

(** [zip] of four sequences, as long as the shortest. *)
Fixpoint zip4 {A B C D} (a : list A) (b : list B) (c : list C) (d : list D)
  : list (A * B * C * D) :=
  match a, b, c, d with
  | x :: a', y :: b', z :: c', w :: d' => (x, y, z, w) :: zip4 a' b' c' d'
  | _, _, _, _ => []
  end.

Definition invalid_ratios : exn :=
  ValueError "Invalid difficulty ratios argument".

Definition bucket_of (n : Z) (tot : float) (e : string * float * float * float)
  : result bucket :=
  let '(k, r, min_d, max_d) := e in
  rbind (py_truediv (fmul r (of_int n)) tot) (fun x =>
  rbind (py_int x) (fun c => Ok (k, (c, min_d, max_d)))).

Definition parse_difficulty_ratios (args : Args) : result (list bucket) :=
  let ratios := difficulty_ratios args in
  if existsb (fun r => flt r (of_int 0)) ratios
     || negb (Nat.eqb (List.length ratios) 4)
  then Raise invalid_ratios
  else
    let tot := py_sum ratios in
    rmap (bucket_of (n_episodes args) tot)
         (zip4 DIFFICULTIES ratios
               (removelast DIFFICULTY_BOUNDS) (tl DIFFICULTY_BOUNDS)).



(** ** The world outside the script *)

Definition point : Type := (float * float * float)%type.

(** [pt[1]], the vertical coordinate. *)
Definition coord_y (p : point) : float := snd (fst p).

Record World : Type := {
  (** Python's global [random] generator: the n-th raw draw of this
      process.  The generator is seeded by the interpreter at import. *)
  py_random : nat -> N;
  (** [cfg.SIMULATOR.SCENE] and [cfg.TASK.SUCCESS.SUCCESS_DISTANCE]. *)
  cfg_scene : string;
  cfg_success_distance : float;
  (** The simulator: the n-th point returned by [sample_navigable_point]
      after [seed(s)], and its deterministic queries. *)
  navigable : Z -> nat -> point;
  island_radius : point -> float;
  geodesic_distance : point -> point -> float;
  agent_position : point;
  (** scipy's Euclidean metric and the [math] module. *)
  euclidean : point -> point -> float;
  math_pi : float;
  math_sin : float -> float;
  math_cos : float -> float
}.

Inductive sim_call : Type :=
| CallMakeSim
| CallGetAgentState
| CallSeed (s : Z)
| CallSampleNavigablePoint
| CallIslandRadius (p : point)
| CallGeodesicDistance (a b : point).

Record state : Type := {
  py_pos : nat;               (* draws taken from the global generator *)
  sim_seed : Z;               (* seed of the simulator's own generator *)
  sim_pos : nat;              (* points sampled since it was seeded *)
  sim_log : list sim_call     (* simulator calls so far, oldest first *)
}.

(** ** State and exception monad *)

Definition M (A : Type) : Type := state -> result A * state.

Definition ret {A} (a : A) : M A := fun s => (Ok a, s).

Definition bind {A B} (m : M A) (k : A -> M B) : M B :=
  fun s =>
    match m s with
    | (Ok a, s') => k a s'
    | (Raise e, s') => (Raise e, s')
    | (Starved, s') => (Starved, s')
    end.

Definition raise {A} (e : exn) : M A := fun s => (Raise e, s).
Definition starve {A} : M A := fun s => (Starved, s).

Definition lift {A} (r : result A) : M A := fun s => (r, s).

Declare Scope py_scope.
Delimit Scope py_scope with py.
Notation "x <- m ;; k" := (bind m (fun x => k))
  (at level 61, m at next level, right associativity) : py_scope.
Notation "' p <- m ;; k" := (bind m (fun x => let 'p := x in k))
  (at level 61, p pattern, m at next level, right associativity) : py_scope.
Notation "m ;; k" := (bind m (fun _ => k))
  (at level 61, right associativity) : py_scope.
Local Open Scope py_scope.

Definition log_call (c : sim_call) : M unit :=
  fun s => (Ok tt, {| py_pos := py_pos s; sim_seed := sim_seed s;
                      sim_pos := sim_pos s; sim_log := sim_log s ++ [c] |}).

(** [seq[i]] for a non-negative index. *)
Definition index {A} (seq : list A) (i : nat) : M A :=
  match nth_error seq i with
  | Some x => ret x
  | None => raise IndexError
  end.

(** [for _ in range(n)]: run [m] [n] times, collecting the values. *)
Fixpoint repeatM {A} (n : nat) (m : M A) : M (list A) :=
  match n with
  | O => ret []
  | S n' => x <- m ;; xs <- repeatM n' m ;; ret (x :: xs)
  end.

(** [d = None; while d is None or again: body]: the body runs once, then
    again while [again] holds of the variables it last assigned.  The value
    is the list of rejected assignments and the accepted one. *)
Fixpoint retry {A} (fuel : nat) (body : M A) (again : A -> bool)
  : M (list A * A) :=
  match fuel with
  | O => starve
  | S fuel' =>
      a <- body ;;
      if again a
      then ' (rej, r) <- retry fuel' body again ;; ret (a :: rej, r)
      else ret ([], a)
  end.

(** ** Data built by the generator *)

(** The variables assigned by one pass through the body of a rejection
    loop: the indices and points of the drawn leg, the Euclidean distance
    stored with the drawn candidate, and the geodesic distance returned by
    the simulator. *)
Record draw : Type := {
  dr_i : nat;
  dr_j : nat;
  dr_euc : float;
  dr_src : point;
  dr_dst : point;
  dr_d : float
}.

(** A candidate as stored in [candidates]: [((i, j), euc_d)]. *)
Definition candidate : Type := ((nat * nat) * float)%type.

(** The variables of one episode at the call of [make_episode]: [src],
    [last], [destinations] and [tot_d].  [w_legs] and [w_rejects] record
    the accepted and the rejected draws of its loops, in order. *)
Record walk : Type := {
  w_src : point;
  w_last : nat;
  w_destinations : list point;
  w_tot_d : float;
  w_legs : list draw;
  w_rejects : list draw
}.

Record NavigationGoal : Type := {
  position : point;
  radius : float
}.

Record NavigationEpisode : Type := {
  episode_id : string;
  scene_id : string;
  start_position : point;
  start_rotation : list float;
  goals : list NavigationGoal;
  info_difficulty : string;
  info_geodesic_distance : float
}.

(** One pass of the episode loop: the id and the difficulty label handed to
    [make_episode], the walk whose [src], [destinations] and [tot_d] are
    handed to it, and the value appended to [dataset.episodes] ([None] is
    Python's [None]). *)
Record assembled : Type := {
  as_id : string;
  as_difficulty : string;
  as_walk : walk;
  as_value : option NavigationEpisode
}.

(** [str(n)] for an integer. *)
Definition py_str (n : Z) : string :=
  NilZero.string_of_int (Z.to_int n).

(** [[(i, j) for i in range(n_pts - 1) for j in range(i + 1, n_pts)]] *)
Definition all_pairs (n_pts : nat) : list (nat * nat) :=
  flat_map (fun i => map (fun j => (i, j)) (seq (S i) (n_pts - S i)))
           (seq 0 (n_pts - 1)).

(** The while condition of both rejection loops, once [d] is assigned. *)
Definition loop_cond (min_d max_d : float) (a : draw) : bool :=
  flt (dr_d a) min_d
  || fgt (dr_d a) max_d
  || flt (fdiv (dr_d a) (dr_euc a)) MIN_DIST_RATIO.

(** The pre-filter of one bucket. *)
Definition prefilter (min_d max_d : float) (c : candidate) : bool :=
  fle (fmul (Fin (8 # 10)) min_d) (snd c)
  && fle (snd c) (fmul (Fin (12 # 10)) max_d).

Definition filter_candidates (min_d max_d : float)
           (pairs : list (nat * nat)) (euc_dists : list float)
  : list candidate :=
  filter (prefilter min_d max_d) (combine pairs euc_dists).

(** The candidates of a chained leg: the other endpoint of every candidate
    that has [last] as an endpoint. *)
Definition nxt_candidates (candidates : list candidate) (last : nat)
  : list (nat * float) :=
  map (fun c => (snd (fst c), snd c))
      (filter (fun c => Nat.eqb (fst (fst c)) last) candidates)
  ++ map (fun c => (fst (fst c), snd c))
         (filter (fun c => Nat.eqb (snd (fst c)) last) candidates).

Section Generator.

Variable W : World.

(** Bound on the passes of each [while] loop. *)
Variable fuel : nat.

(** *** Python's [random] module *)

Definition random_raw : M N :=
  fun s => (Ok (py_random W (py_pos s)),
            {| py_pos := S (py_pos s); sim_seed := sim_seed s;
               sim_pos := sim_pos s; sim_log := sim_log s |}).

(** [random.choice(seq)] *)
Definition random_choice {A} (seq : list A) : M A :=
  match seq with
  | [] => raise IndexError
  | _ :: _ =>
      k <- random_raw ;;
      index seq (N.to_nat (N.modulo k (N.of_nat (List.length seq))))
  end.

(** [random.random()]: a multiple of 2^-53 in [0, 1). *)
Definition random_random : M float :=
  k <- random_raw ;;
  ret (Fin (Z.of_N (N.modulo k (2 ^ 53)) # (2 ^ 53))).

(** *** The simulator *)

Definition make_sim : M unit := log_call CallMakeSim.

Definition sim_get_agent_position : M point :=
  log_call CallGetAgentState ;; ret (agent_position W).

Definition sim_do_seed (v : Z) : M unit :=
  fun s => (Ok tt, {| py_pos := py_pos s; sim_seed := v; sim_pos := 0;
                      sim_log := sim_log s ++ [CallSeed v] |}).

Definition sim_sample_navigable_point : M point :=
  fun s => (Ok (navigable W (sim_seed s) (sim_pos s)),
            {| py_pos := py_pos s; sim_seed := sim_seed s;
               sim_pos := S (sim_pos s);
               sim_log := sim_log s ++ [CallSampleNavigablePoint] |}).

Definition sim_island_radius (p : point) : M float :=
  log_call (CallIslandRadius p) ;; ret (island_radius W p).

Definition sim_geodesic_distance (a b : point) : M float :=
  log_call (CallGeodesicDistance a b) ;; ret (geodesic_distance W a b).

(** scipy's [pdist]: the distances in the order of [all_pairs]; an empty
    sequence is not a 2-dimensional array and is refused. *)
Fixpoint pdist (pts : list point) : list float :=
  match pts with
  | [] => []
  | p :: rest => map (euclidean W p) rest ++ pdist rest
  end.

Definition pairwise_distance (pts : list point) : result (list float) :=
  match pts with
  | [] => Raise (ValueError "A 2-dimensional array must be passed.")
  | _ :: _ => Ok (pdist pts)
  end.

(** *** sample_point *)

Definition sample_point_cond (height : option float) (radius : float)
           (pt : point) : M bool :=
  r <- sim_island_radius pt ;;
  ret (flt r radius
       || match height with
          | Some h => fgt (fabs (fsub (coord_y pt) h)) EPS
          | None => false
          end).

Fixpoint sample_point_loop (n : nat) (height : option float)
         (radius : float) (pt : point) : M point :=
  again <- sample_point_cond height radius pt ;;
  if again
  then match n with
       | O => starve
       | S n' =>
           pt' <- sim_sample_navigable_point ;;
           sample_point_loop n' height radius pt'
       end
  else ret pt.

Definition sample_point (height : option float) (radius : float) : M point :=
  pt <- sim_sample_navigable_point ;;
  sample_point_loop fuel height radius pt.

(** *** make_episode *)

(** The local variable [episode] of [make_episode]. *)
Definition make_episode_record (ep_id scene : string) (src : point)
           (destinations : list point) (success_dist : float)
           (difficulty : string) (geo_dist : float)
  : M NavigationEpisode :=
  u <- random_random ;;
  let a := fmul (fmul (of_int 2) (math_pi W)) u in
  let q := [of_int 0; math_sin W (fdiv a (of_int 2));
            of_int 0; math_cos W (fdiv a (of_int 2))] in
  let goals :=
    map (fun dst => {| position := dst; radius := success_dist |})
        destinations in
  ret {| episode_id := ep_id; scene_id := scene;
         start_position := src; start_rotation := q; goals := goals;
         info_difficulty := difficulty;
         info_geodesic_distance := geo_dist |}.

(** The function has no [return] statement: its value is [None]. *)
Definition make_episode (ep_id scene : string) (src : point)
           (destinations : list point) (success_dist : float)
           (difficulty : string) (geo_dist : float)
  : M (option NavigationEpisode) :=
  episode <- make_episode_record ep_id scene src destinations success_dist
                                 difficulty geo_dist ;;
  ret None.

(** *** The sampling loops of main *)

Section Bucket.

Variable nav_pts : list point.
Variable candidates : list candidate.
Variables min_d max_d : float.

(** Body of the first-leg loop. *)
Definition first_leg_body : M draw :=
  c <- random_choice candidates ;;
  let i := fst (fst c) in
  let j := snd (fst c) in
  let euc_d := snd c in
  src <- index nav_pts i ;;
  dst <- index nav_pts j ;;
  d <- sim_geodesic_distance src dst ;;
  ret {| dr_i := i; dr_j := j; dr_euc := euc_d;
         dr_src := src; dr_dst := dst; dr_d := d |}.

(** Body of a chained-leg loop. *)
Definition next_leg_body (last : nat) (nxt : list (nat * float)) : M draw :=
  c <- random_choice nxt ;;
  let j := fst c in
  let euc_d := snd c in
  src <- index nav_pts last ;;
  dst <- index nav_pts j ;;
  d <- sim_geodesic_distance src dst ;;
  ret {| dr_i := last; dr_j := j; dr_euc := euc_d;
         dr_src := src; dr_dst := dst; dr_d := d |}.

(** [for _ in range(n)] over the chained legs. *)
Fixpoint chain (n : nat) (w : walk) : M walk :=
  match n with
  | O => ret w
  | S n' =>
      let nxt := nxt_candidates candidates (w_last w) in
      ' (rej, a) <- retry fuel (next_leg_body (w_last w) nxt)
                          (loop_cond min_d max_d) ;;
      chain n' {| w_src := dr_src a;
                  w_last := dr_j a;
                  w_destinations := w_destinations w ++ [dr_dst a];
                  w_tot_d := fadd (w_tot_d w) (dr_d a);
                  w_legs := w_legs w ++ [a];
                  w_rejects := w_rejects w ++ rej |}
  end.

(** The body of the episode loop up to the call of [make_episode]. *)
Definition episode_walk (goals_per_ep : Z) : M walk :=
  ' (rej, a) <- retry fuel first_leg_body (loop_cond min_d max_d) ;;
  chain (Z.to_nat (goals_per_ep - 1))
        {| w_src := dr_src a;
           w_last := dr_j a;
           w_destinations := [dr_dst a];
           w_tot_d := dr_d a;
           w_legs := [a];
           w_rejects := rej |}.

(** [for ep in range(n_ep)], with the running counter [tot_cnt]. *)
Fixpoint episodes_loop (n : nat) (k : string) (goals_per_ep : Z)
         (tot_cnt : Z) : M (list assembled * Z) :=
  match n with
  | O => ret ([], tot_cnt)
  | S n' =>
      w <- episode_walk goals_per_ep ;;
      episode <- make_episode (py_str tot_cnt) (cfg_scene W) (w_src w)
                              (w_destinations w) (cfg_success_distance W)
                              k (w_tot_d w) ;;
      ' (rest, c) <- episodes_loop n' k goals_per_ep (tot_cnt + 1) ;;
      ret ({| as_id := py_str tot_cnt; as_difficulty := k;
              as_walk := w; as_value := episode |} :: rest, c)
  end.

End Bucket.

(** [for k, (n_ep, min_d, max_d) in difficulties.items()] *)
Fixpoint buckets_loop (difficulties : list bucket) (nav_pts : list point)
         (pairs : list (nat * nat)) (euc_dists : list float)
         (goals_per_ep : Z) (tot_cnt : Z) : M (list assembled) :=
  match difficulties with
  | [] => ret []
  | (k, (n_ep, min_d, max_d)) :: rest =>
      let candidates := filter_candidates min_d max_d pairs euc_dists in
      ' (eps, c) <- episodes_loop nav_pts candidates min_d max_d
                                  (Z.to_nat n_ep) k goals_per_ep tot_cnt ;;
      more <- buckets_loop rest nav_pts pairs euc_dists goals_per_ep c ;;
      ret (eps ++ more)
  end.

(** *** main *)

(** [main] up to the end of the generation loops, with the walk of every
    episode next to the value appended for it. *)
Definition main_body (args : Args) : M (list assembled) :=
  difficulties <- lift (parse_difficulty_ratios args) ;;
  make_sim ;;
  pos <- sim_get_agent_position ;;
  let height := coord_y pos in
  sim_do_seed (seed args) ;;
  let n_pts := Z.to_nat ((n_goals_per_ep args + 1) * n_episodes args) in
  nav_pts <- repeatM n_pts (sample_point (Some height) MIN_ISLAND_RADIUS) ;;
  let pairs := all_pairs n_pts in
  euc_dists <- lift (pairwise_distance nav_pts) ;;
  buckets_loop difficulties nav_pts pairs euc_dists (n_goals_per_ep args) 0.

(** The value of [dataset.episodes] handed to the writer. *)
Definition main (args : Args) : M (list (option NavigationEpisode)) :=
  rs <- main_body args ;;
  ret (map as_value rs).

End Generator.

(** ** A concrete scene

    Points on a straight corridor along the x axis, one metre apart; the
    simulator samples them left to right.  The Euclidean distance of two
    corridor points is the difference of their abscissas.  Every path
    takes a detour of one half of the straight distance. *)

Module Corridor.

Definition at_x (x : Z) : point := (of_int x, of_int 0, of_int 0).

Definition abscissa (p : point) : float := fst (fst p).

Definition straight (p q : point) : float :=
  fabs (fsub (abscissa p) (abscissa q)).

Definition detour (p q : point) : float :=
  fmul (Fin (3 # 2)) (straight p q).

Definition world (draws : list N) (geo : point -> point -> float) : World := {|
  py_random := fun n => nth n draws 0%N;
  cfg_scene := "corridor.glb";
  cfg_success_distance := Fin (2 # 10);
  navigable := fun _ n => at_x (Z.of_nat n);
  island_radius := fun _ => of_int 2;
  geodesic_distance := geo;
  agent_position := at_x 0;
  euclidean := straight;
  math_pi := Fin (355 # 113);
  math_sin := fun x => x;
  math_cos := fun _ => of_int 1
|}.

Definition args (n m : Z) (ratios : list Z) (s : Z) : Args := {|
  n_episodes := n;
  n_goals_per_ep := m;
  difficulty_ratios := map of_int ratios;
  seed := s
|}.

Definition start : state :=
  {| py_pos := 0; sim_seed := 0; sim_pos := 0; sim_log := [] |}.

(** A detour where the points are at most two metres apart, no path
    otherwise. *)
Definition blocked (p q : point) : float :=
  if fle (straight p q) (of_int 2) then detour p q else PInf.

(** A simulator that answers NaN for every pair. *)
Definition undefined (_ _ : point) : float := NaN.

(** The first [n] sampled points, and the candidates of the "very easy"
    bucket among them. *)
Definition points (n : nat) : list point :=
  map (fun k => at_x (Z.of_nat k)) (seq 0 n).

Definition very_easy (W : World) (n : nat) : list candidate :=
  filter_candidates (Fin 1) (Fin 3) (all_pairs n) (pdist W (points n)).

Definition tape : list N := [2; 1; 0; 3; 4; 5; 6; 7; 9; 11; 13; 8]%N.

End Corridor.

(** ** Properties of draws and walks *)

(** The draw joins the two endpoints of a stored candidate, in either
    orientation, and carries the Euclidean distance stored with it. *)
Definition from_candidates (candidates : list candidate) (a : draw) : Prop :=
  In ((dr_i a, dr_j a), dr_euc a) candidates
  \/ In ((dr_j a, dr_i a), dr_euc a) candidates.

(** The points of the draw are the sampled points at its indices and its
    distance is the simulator's answer for them. *)
Definition located (W : World) (nav_pts : list point) (a : draw) : Prop :=
  nth_error nav_pts (dr_i a) = Some (dr_src a)
  /\ nth_error nav_pts (dr_j a) = Some (dr_dst a)
  /\ dr_d a = geodesic_distance W (dr_src a) (dr_dst a).

(** A distance that signals an unreachable pair: an infinity or a negative
    number. *)
Definition infinite_or_negative (d : float) : Prop :=
  d = PInf \/ d = NInf \/ exists q, d = Fin q /\ (q < 0)%Q.

(** The geodesic distances of the legs, added left to right. *)
Definition leg_total (legs : list draw) : option float :=
  match legs with
  | [] => None
  | a :: rest => Some (fold_left fadd (map dr_d rest) (dr_d a))
  end.

(** Leg [b] starts where leg [a] ended. *)
Definition continues (a b : draw) : Prop :=
  dr_i b = dr_j a /\ dr_src b = dr_dst a.

Record walk_inv (W : World) (nav_pts : list point)
       (candidates : list candidate) (min_d max_d : float) (w : walk)
  : Prop := {
  inv_final : exists earlier final,
      w_legs w = earlier ++ [final]
      /\ w_last w = dr_j final /\ w_src w = dr_src final;
  inv_destinations : w_destinations w = map dr_dst (w_legs w);
  inv_tot_d : leg_total (w_legs w) = Some (w_tot_d w);
  inv_legs : Forall (fun a => loop_cond min_d max_d a = false
                              /\ from_candidates candidates a
                              /\ located W nav_pts a) (w_legs w);
  inv_rejects : Forall (fun a => loop_cond min_d max_d a = true
                                 /\ from_candidates candidates a
                                 /\ located W nav_pts a) (w_rejects w);
  inv_chain : forall k a b,
      nth_error (w_legs w) k = Some a ->
      nth_error (w_legs w) (S k) = Some b ->
      continues a b
}.

(** A pass of the episode loop for a bucket: its walk is the outcome of
    [episode_walk] from some state and the value appended is [None]. *)
Definition pass_of (W : World) (fuel : nat) (nav_pts : list point)
           (candidates : list candidate) (min_d max_d : float) (m : Z)
           (r : assembled) : Prop :=
  as_value r = None
  /\ exists st st',
      episode_walk W fuel nav_pts candidates min_d max_d m st
      = (Ok (as_walk r), st').


(** The label and the bounds of the four buckets. *)
Definition bucket_bounds : list (string * (float * float)) :=
  combine DIFFICULTIES
          (combine (removelast DIFFICULTY_BOUNDS) (tl DIFFICULTY_BOUNDS)).

(** ** Properties of point sampling *)

(** The while condition of [sample_point] for a point, given the
    simulator's answer for its island radius. *)
Definition resample (W : World) (height : option float) (radius : float)
           (pt : point) : bool :=
  flt (island_radius W pt) radius
  || match height with
     | Some h => fgt (fabs (fsub (coord_y pt) h)) EPS
     | None => false
     end.

(** A corridor whose first two metres lie on a small island. *)
Module Islets.

Definition small_island (p : point) : float :=
  if flt (Corridor.abscissa p) (of_int 2) then of_int 1 else of_int 2.

Definition world : World := {|
  py_random := fun n => nth n Corridor.tape 0%N;
  cfg_scene := "corridor.glb";
  cfg_success_distance := Fin (2 # 10);
  navigable := fun _ n => Corridor.at_x (Z.of_nat n);
  island_radius := small_island;
  geodesic_distance := Corridor.detour;
  agent_position := Corridor.at_x 0;
  euclidean := Corridor.straight;
  math_pi := Fin (355 # 113);
  math_sin := fun x => x;
  math_cos := fun _ => of_int 1
|}.

End Islets.

(** The indices of every candidate are indices of sampled points. *)
Definition in_range (n : nat) (candidates : list candidate) : Prop :=
  forall i j e, In ((i, j), e) candidates -> (i < n)%nat /\ (j < n)%nat.

(** The three acceptance conditions of a leg, each as a comparison that
    holds. *)
Definition admissible (min_d max_d : float) (a : draw) : Prop :=
  fle min_d (dr_d a) = true
  /\ fle (dr_d a) max_d = true
  /\ fle MIN_DIST_RATIO (fdiv (dr_d a) (dr_euc a)) = true.

(** The index is an endpoint of some candidate. *)
Definition touches (candidates : list candidate) (last : nat) : Prop :=
  exists j e, In ((last, j), e) candidates \/ In ((j, last), e) candidates.



(** Between [s] and [s'] the global generator gave [n] draws and the
    simulator answered [n] geodesic-distance queries and nothing else: its
    seed and its stream of points are where they were. *)
Definition queried (s s' : state) (n : nat) : Prop :=
  py_pos s' = (py_pos s + n)%nat
  /\ sim_seed s' = sim_seed s
  /\ sim_pos s' = sim_pos s
  /\ exists calls,
      sim_log s' = sim_log s ++ calls
      /\ List.length calls = n
      /\ Forall (fun c => exists a b, c = CallGeodesicDistance a b) calls.


(** * Facts *)

(** ** Floats *)

Lemma flt_false_fle x y :
  is_nan x = false -> is_nan y = false -> flt x y = false -> fle y x = true.
Proof.
  unfold flt, fle.
  destruct x as [a| | |], y as [b| | |]; simpl; try discriminate; auto.
  intros _ _. rewrite <- (Qcompare_antisym a b).
  destruct (a ?= b)%Q; simpl; auto; discriminate.
Qed.

Lemma fle_not_nan_l x y : fle x y = true -> is_nan x = false.
Proof. destruct x, y; simpl; intros H; auto; discriminate H. Qed.

Lemma fle_not_nan_r x y : fle x y = true -> is_nan y = false.
Proof. destruct x, y; simpl; intros H; auto; discriminate H. Qed.

Lemma flt_Fin a b : flt (Fin a) (Fin b) = true <-> (a < b)%Q.
Proof.
  unfold flt; simpl. rewrite Qlt_alt.
  destruct (a ?= b)%Q; split; congruence.
Qed.

Lemma fle_Fin a b : fle (Fin a) (Fin b) = true <-> (a <= b)%Q.
Proof.
  unfold fle; simpl. rewrite Qle_alt.
  destruct (a ?= b)%Q; split; congruence.
Qed.


(** ** Truncation *)



(** ** Difficulty ratios *)



(** The check of [parse_difficulty_ratios] is the only source of its
    invalid-ratios error: the arithmetic that follows raises other errors. *)
Lemma bucket_of_not_invalid n tot e :
  bucket_of n tot e <> Raise invalid_ratios.
Proof.
  destruct e as [[[k r] lo] hi]. unfold bucket_of, py_truediv.
  assert (P : forall x, rbind (py_int x)
                (fun c => Ok (k, (c, lo, hi))) <> Raise invalid_ratios).
  { intros [q| | |]; simpl; discriminate. }
  destruct tot as [b| | |]; simpl; auto.
  destruct (Qeq_bool b 0); simpl; auto. discriminate.
Qed.

Lemma rmap_bucket_of_not_invalid n tot l :
  rmap (bucket_of n tot) l <> Raise invalid_ratios.
Proof.
  induction l as [|e l IH]; simpl; [discriminate|].
  pose proof (bucket_of_not_invalid n tot e) as He.
  destruct (bucket_of n tot e) as [b|x|]; simpl; try congruence.
  destruct (rmap (bucket_of n tot) l) as [bs|x|]; simpl; congruence.
Qed.

Lemma invalid_ratios_iff (args : Args) :
  parse_difficulty_ratios args = Raise invalid_ratios
  <-> (exists r, In r (difficulty_ratios args) /\ flt r (of_int 0) = true)
      \/ List.length (difficulty_ratios args) <> 4%nat.
Proof.
  unfold parse_difficulty_ratios.
  destruct (existsb _ _) eqn:E1; simpl.
  - split; auto. intros _. left. apply existsb_exists in E1. exact E1.
  - destruct (Nat.eqb_spec (List.length (difficulty_ratios args)) 4)
      as [E2|E2]; simpl.
    + split.
      * intros H. now apply rmap_bucket_of_not_invalid in H.
      * intros [(r & Hin & Hr)|H]; [|contradiction].
        assert (existsb (fun r => flt r (of_int 0)) (difficulty_ratios args)
                = true) by (apply existsb_exists; eauto).
        congruence.
    + split; auto.
Qed.




(** C7: the ratios "0,0,0,0" are four numbers none of which is negative,
    so they pass the check; yet parsing them does not return: the division
    by their sum raises ZeroDivisionError, which is not the error of the
    check. *)
Theorem all_zero_ratios_divide_by_zero (n m sd : Z) :
  let a := Corridor.args n m [0; 0; 0; 0] sd in
  List.length (difficulty_ratios a) = 4%nat
  /\ Forall (fun r => flt r (of_int 0) = false) (difficulty_ratios a)
  /\ parse_difficulty_ratios a = Raise ZeroDivisionError
  /\ parse_difficulty_ratios a <> Raise invalid_ratios.
Proof.
  intros a. split; [reflexivity|]. split.
  - repeat constructor.
  - split; [reflexivity|].
    rewrite invalid_ratios_iff. intros [(r & Hin & Hr)|Hlen].
    + simpl in Hin. destruct Hin as [<-|[<-|[<-|[<-|[]]]]]; discriminate Hr.
    + apply Hlen. reflexivity.
Qed.

(** ** The monad *)

Lemma bind_ok {A B} (m : M A) (k : A -> M B) s b s' :
  bind m k s = (Ok b, s') ->
  exists a s1, m s = (Ok a, s1) /\ k a s1 = (Ok b, s').
Proof.
  unfold bind. destruct (m s) as [[a|e|] s1]; intros H;
    try discriminate; eauto.
Qed.

Lemma ret_ok {A} (a b : A) s s' : ret a s = (Ok b, s') -> a = b /\ s = s'.
Proof. unfold ret. intros H. now inversion H. Qed.

Lemma index_ok {A} (l : list A) i x s s' :
  index l i s = (Ok x, s') -> nth_error l i = Some x.
Proof.
  unfold index. destruct (nth_error l i); [|discriminate].
  intros H. apply ret_ok in H. now f_equal.
Qed.

Ltac inv_bind H :=
  let a := fresh "v" in
  let s := fresh "s" in
  let E := fresh "E" in
  apply bind_ok in H; destruct H as (a & s & E & H).

Tactic Notation "split_bind" hyp(H) "as" ident(a) ident(s) ident(E) :=
  apply bind_ok in H; destruct H as (a & s & E & H).

Lemma retry_ok {A} (P : A -> Prop) (body : M A) (again : A -> bool) :
  (forall s a s', body s = (Ok a, s') -> P a) ->
  forall fuel s rej a s',
    retry fuel body again s = (Ok (rej, a), s') ->
    (P a /\ again a = false)
    /\ Forall (fun x => P x /\ again x = true) rej.
Proof.
  intros HP. induction fuel as [|fuel IH]; intros s rej a s' H; simpl in H.
  - discriminate.
  - inv_bind H. destruct (again v) eqn:Ev.
    + inv_bind H. destruct v0 as [rej0 r]. apply ret_ok in H.
      destruct H as [H _]. inversion H; subst.
      destruct (IH _ _ _ _ E0) as [Ha Hrej]. split; auto.
      constructor; eauto.
    + apply ret_ok in H. destruct H as [H _]. inversion H; subst.
      split; eauto.
Qed.

(** ** The sampling loops *)

Section WalkFacts.

Variable W : World.
Variable fuel : nat.
Variable nav_pts : list point.
Variable candidates : list candidate.
Variables min_d max_d : float.

Lemma random_choice_in {A} (seq : list A) x s s' :
  random_choice W seq s = (Ok x, s') -> In x seq.
Proof.
  destruct seq as [|y seq]; [discriminate|].
  unfold random_choice. intros H. inv_bind H.
  apply index_ok in H. eapply nth_error_In; eauto.
Qed.

Lemma sim_geodesic_distance_ok a b d s s' :
  sim_geodesic_distance W a b s = (Ok d, s') ->
  d = geodesic_distance W a b.
Proof.
  unfold sim_geodesic_distance. intros H. inv_bind H.
  apply ret_ok in H. now destruct H.
Qed.

Lemma first_leg_body_ok a s s' :
  first_leg_body W nav_pts candidates s = (Ok a, s') ->
  In ((dr_i a, dr_j a), dr_euc a) candidates /\ located W nav_pts a.
Proof.
  unfold first_leg_body. intros H.
  inv_bind H. apply random_choice_in in E. destruct v as [[i j] e].
  inv_bind H. apply index_ok in E0.
  inv_bind H. apply index_ok in E1.
  inv_bind H. apply sim_geodesic_distance_ok in E2.
  apply ret_ok in H. destruct H as [<- _]. simpl in *.
  repeat split; auto.
Qed.

Lemma next_leg_body_ok last nxt a s s' :
  next_leg_body W nav_pts last nxt s = (Ok a, s') ->
  dr_i a = last /\ In (dr_j a, dr_euc a) nxt /\ located W nav_pts a.
Proof.
  unfold next_leg_body. intros H.
  inv_bind H. apply random_choice_in in E. destruct v as [j e].
  inv_bind H. apply index_ok in E0.
  inv_bind H. apply index_ok in E1.
  inv_bind H. apply sim_geodesic_distance_ok in E2.
  apply ret_ok in H. destruct H as [<- _]. simpl in *.
  repeat split; auto.
Qed.

Lemma nxt_candidates_iff last j e :
  In (j, e) (nxt_candidates candidates last)
  <-> In ((last, j), e) candidates \/ In ((j, last), e) candidates.
Proof.
  unfold nxt_candidates. rewrite in_app_iff, !in_map_iff.
  split.
  - intros [([[a b] x] & Heq & Hin)|([[a b] x] & Heq & Hin)];
      apply filter_In in Hin; destruct Hin as [Hin Hlast];
      simpl in *; apply Nat.eqb_eq in Hlast; inversion Heq; subst; auto.
  - intros [Hin|Hin].
    + left. exists ((last, j), e). split; auto.
      apply filter_In. split; auto. simpl. apply Nat.eqb_refl.
    + right. exists ((j, last), e). split; auto.
      apply filter_In. split; auto. simpl. apply Nat.eqb_refl.
Qed.

Lemma leg_total_snoc legs t a :
  leg_total legs = Some t ->
  leg_total (legs ++ [a]) = Some (fadd t (dr_d a)).
Proof.
  destruct legs as [|a0 rest]; simpl; [discriminate|].
  intros H. inversion H; subst.
  now rewrite map_app, fold_left_app.
Qed.

(** One accepted chained leg keeps the invariant of the walk. *)
Lemma walk_inv_step w a rej :
  walk_inv W nav_pts candidates min_d max_d w ->
  loop_cond min_d max_d a = false ->
  dr_i a = w_last w ->
  In (dr_j a, dr_euc a) (nxt_candidates candidates (w_last w)) ->
  located W nav_pts a ->
  Forall (fun x => loop_cond min_d max_d x = true
                   /\ from_candidates candidates x
                   /\ located W nav_pts x) rej ->
  walk_inv W nav_pts candidates min_d max_d
           {| w_src := dr_src a;
              w_last := dr_j a;
              w_destinations := w_destinations w ++ [dr_dst a];
              w_tot_d := fadd (w_tot_d w) (dr_d a);
              w_legs := w_legs w ++ [a];
              w_rejects := w_rejects w ++ rej |}.
Proof.
  intros [Hfin Hdst Htot Hlegs Hrej Hch] Hacc Hi Hnxt Hloc Hrej'.
  assert (Hfrom : from_candidates candidates a).
  { apply nxt_candidates_iff in Hnxt. unfold from_candidates.
    rewrite Hi. exact Hnxt. }
  constructor;
    cbn [w_src w_last w_destinations w_tot_d w_legs w_rejects].
  - exists (w_legs w), a. auto.
  - now rewrite map_app, Hdst.
  - now apply leg_total_snoc.
  - apply Forall_app. split; auto.
  - apply Forall_app. split; auto.
  - intros k x y Hx Hy.
    destruct (Nat.lt_ge_cases (S k) (List.length (w_legs w))) as [Hlt|Hge].
    + rewrite nth_error_app1 in Hx by lia.
      rewrite nth_error_app1 in Hy by lia. eauto.
    + rewrite nth_error_app2 in Hy by lia.
      destruct (S k - List.length (w_legs w))%nat as [|r] eqn:Er.
      * simpl in Hy. inversion Hy; subst y.
        destruct Hfin as (earlier & final & Hl & Hlast & _).
        assert (Hlen : List.length (w_legs w) = S (List.length earlier))
          by (rewrite Hl, length_app; simpl; lia).
        rewrite nth_error_app1 in Hx by lia.
        rewrite Hl in Hx.
        rewrite nth_error_app2 in Hx by lia.
        replace (k - List.length earlier)%nat with 0%nat in Hx by lia.
        simpl in Hx. inversion Hx; subst x.
        assert (Hlf : located W nav_pts final).
        { rewrite Forall_forall in Hlegs.
          apply (Hlegs final). rewrite Hl. apply in_or_app. simpl. auto. }
        destruct Hlf as (_ & Hfd & _). destruct Hloc as (Has & _ & _).
        unfold continues. split; [congruence|].
        rewrite Hi, Hlast, Hfd in Has. congruence.
      * simpl in Hy. destruct r; discriminate.
Qed.

Lemma chain_ok n : forall w s w' s',
  walk_inv W nav_pts candidates min_d max_d w ->
  chain W fuel nav_pts candidates min_d max_d n w s = (Ok w', s') ->
  walk_inv W nav_pts candidates min_d max_d w'
  /\ List.length (w_legs w') = (List.length (w_legs w) + n)%nat.
Proof.
  induction n as [|n IH]; intros w s w' s' Hinv H; simpl in H.
  - apply ret_ok in H. destruct H as [<- _]. split; auto.
  - inv_bind H. destruct v as [rej a].
    apply (retry_ok (fun x => dr_i x = w_last w
                      /\ In (dr_j x, dr_euc x)
                            (nxt_candidates candidates (w_last w))
                      /\ located W nav_pts x)) in E.
    2:{ intros. eapply next_leg_body_ok; eauto. }
    destruct E as [[(Hi & Hnxt & Hloc) Hacc] Hrej].
    apply IH in H.
    + destruct H as [Hinv' Hlen]. split; auto.
      rewrite Hlen. simpl. rewrite length_app. simpl. lia.
    + apply walk_inv_step; auto.
      eapply Forall_impl; [|exact Hrej].
      intros x [(Hxi & Hxn & Hxl) Hxc]. repeat split; auto.
      * apply nxt_candidates_iff in Hxn. unfold from_candidates.
        rewrite Hxi. exact Hxn.
      * apply Hxl.
      * apply Hxl.
      * apply Hxl.
Qed.

(** Every walk that the episode loop hands to [make_episode] satisfies the
    invariant and has one leg, plus one per chained goal. *)
Lemma episode_walk_ok m s w s' :
  episode_walk W fuel nav_pts candidates min_d max_d m s = (Ok w, s') ->
  walk_inv W nav_pts candidates min_d max_d w
  /\ List.length (w_legs w) = S (Z.to_nat (m - 1)).
Proof.
  unfold episode_walk. intros H. inv_bind H. destruct v as [rej a].
  apply (retry_ok (fun x => In ((dr_i x, dr_j x), dr_euc x) candidates
                            /\ located W nav_pts x)) in E.
  2:{ intros. eapply first_leg_body_ok; eauto. }
  destruct E as [[(Hin & Hloc) Hacc] Hrej].
  apply chain_ok in H.
  - destruct H as [Hinv Hlen]. split; auto.
  - constructor; simpl.
    + exists [], a. auto.
    + reflexivity.
    + reflexivity.
    + constructor; auto. repeat split; try apply Hloc; auto.
      left; auto.
    + eapply Forall_impl; [|exact Hrej].
      intros x [(Hxin & Hxl) Hxc]. repeat split; try apply Hxl; auto.
      left; auto.
    + intros k x y _ Hy. destruct k; discriminate.
Qed.

End WalkFacts.

(** ** Acceptance *)

Lemma loop_cond_false min_d max_d a :
  loop_cond min_d max_d a = false ->
  flt (dr_d a) min_d = false
  /\ flt max_d (dr_d a) = false
  /\ flt (fdiv (dr_d a) (dr_euc a)) MIN_DIST_RATIO = false.
Proof.
  unfold loop_cond, fgt. intros H.
  apply orb_false_elim in H. destruct H as [H H3].
  apply orb_false_elim in H. destruct H as [H1 H2]. auto.
Qed.

Lemma loop_cond_rejects_unreachable (lo hi : Q) a :
  (0 <= lo)%Q ->
  infinite_or_negative (dr_d a) ->
  loop_cond (Fin lo) (Fin hi) a = true.
Proof.
  intros Hlo [E|[E|(q & E & Hq)]]; unfold loop_cond, fgt; rewrite E.
  - reflexivity.
  - reflexivity.
  - assert (H : flt (Fin q) (Fin lo) = true).
    { apply flt_Fin. eapply Qlt_le_trans; eauto. }
    now rewrite H.
Qed.

(** A rejected draw sends the loop round again: the draw joins the rejected
    ones and the result is that of the remaining passes. *)
Lemma retry_redraws {A} (body : M A) (again : A -> bool) fuel s a s1 :
  body s = (Ok a, s1) ->
  again a = true ->
  retry (S fuel) body again s
  = bind (retry fuel body again)
         (fun x => let '(rej, r) := x in ret (a :: rej, r)) s1.
Proof.
  intros Hb Ha. simpl. unfold bind at 1. now rewrite Hb, Ha.
Qed.

Lemma prefiltered_euc_not_nan min_d max_d pairs euc_dists a :
  from_candidates (filter_candidates min_d max_d pairs euc_dists) a ->
  is_nan (dr_euc a) = false.
Proof.
  unfold from_candidates, filter_candidates.
  intros [H|H]; apply filter_In in H; destruct H as [_ H];
    unfold prefilter in H; simpl in H;
    apply andb_true_iff in H; destruct H as [H _];
    eapply fle_not_nan_r; eauto.
Qed.

Lemma fdiv_positive_not_nan q e :
  (0 < q)%Q -> is_nan e = false -> is_nan (fdiv (Fin q) e) = false.
Proof.
  intros Hq He. destruct e as [b| | |]; simpl in *; auto; try discriminate.
  destruct (Qeq_bool b 0); auto.
  unfold signed_inf. apply Qgt_alt in Hq. now rewrite Hq.
Qed.

Lemma accepted_number_in_range (lo hi : Q) a :
  (0 < lo)%Q ->
  loop_cond (Fin lo) (Fin hi) a = false ->
  is_nan (dr_euc a) = false ->
  is_nan (dr_d a) = false ->
  fle (Fin lo) (dr_d a) = true
  /\ fle (dr_d a) (Fin hi) = true
  /\ fle MIN_DIST_RATIO (fdiv (dr_d a) (dr_euc a)) = true.
Proof.
  intros Hlo Hc He Hd.
  apply loop_cond_false in Hc. destruct Hc as (H1 & H2 & H3).
  apply flt_false_fle in H1; auto.
  apply flt_false_fle in H2; auto.
  split; [auto|split; [auto|]].
  apply flt_false_fle; auto.
  destruct (dr_d a) as [q| | |]; try discriminate.
  apply fdiv_positive_not_nan; auto.
  apply fle_Fin in H1. eapply Qlt_le_trans; eauto.
Qed.


(** C6 (as amended): a geodesic distance that is infinite or negative makes
    the loop condition true; the pass that drew it is followed by the
    remaining passes of the loop, whose accepted draw is the loop's; and no
    leg of any walk carries such a distance. *)
Theorem unreachable_distance_is_rejected (lo hi : Q) :
  (0 <= lo)%Q ->
  (forall a, infinite_or_negative (dr_d a) ->
             loop_cond (Fin lo) (Fin hi) a = true)
  /\ (forall (body : M draw) fuel s a s1,
         body s = (Ok a, s1) ->
         infinite_or_negative (dr_d a) ->
         retry (S fuel) body (loop_cond (Fin lo) (Fin hi)) s
         = bind (retry fuel body (loop_cond (Fin lo) (Fin hi)))
                (fun x => let '(rej, r) := x in ret (a :: rej, r)) s1)
  /\ (forall W fuel nav_pts candidates m s w s',
         episode_walk W fuel nav_pts candidates (Fin lo) (Fin hi) m s
         = (Ok w, s') ->
         forall leg, In leg (w_legs w) ->
                     ~ infinite_or_negative (dr_d leg)).
Proof.
  intros Hlo. split; [|split].
  - intros a. now apply loop_cond_rejects_unreachable.
  - intros body fuel s a s1 Hb Hbad. apply retry_redraws; auto.
    now apply loop_cond_rejects_unreachable.
  - intros W fuel nav_pts candidates m s w s' Hrun leg Hin Hbad.
    apply episode_walk_ok in Hrun. destruct Hrun as [Hinv _].
    pose proof (inv_legs _ _ _ _ _ _ Hinv) as Hlegs.
    rewrite Forall_forall in Hlegs.
    destruct (Hlegs leg Hin) as (Hc & _).
    rewrite (loop_cond_rejects_unreachable lo hi leg Hlo Hbad) in Hc.
    discriminate.
Qed.

(** ** Chaining *)

(** C5: in every walk, leg k+1 is drawn among the candidates that have the
    destination index of leg k as an endpoint, in either stored
    orientation, and starts at the point where leg k ended; the goals are
    the destinations of the legs in order. *)
Theorem chained_legs_are_connected
        W fuel nav_pts candidates min_d max_d m s w s' :
  episode_walk W fuel nav_pts candidates min_d max_d m s = (Ok w, s') ->
  forall k a b,
    nth_error (w_legs w) k = Some a ->
    nth_error (w_legs w) (S k) = Some b ->
    In (dr_j b, dr_euc b) (nxt_candidates candidates (dr_j a))
    /\ (In ((dr_j a, dr_j b), dr_euc b) candidates
        \/ In ((dr_j b, dr_j a), dr_euc b) candidates)
    /\ dr_src b = dr_dst a
    /\ nth_error (w_destinations w) k = Some (dr_dst a)
    /\ nth_error (w_destinations w) (S k) = Some (dr_dst b).
Proof.
  intros Hrun k a b Ha Hb.
  apply episode_walk_ok in Hrun. destruct Hrun as [Hinv _].
  destruct (inv_chain _ _ _ _ _ _ Hinv k a b Ha Hb) as [Hi Hsrc].
  pose proof (inv_legs _ _ _ _ _ _ Hinv) as Hlegs.
  rewrite Forall_forall in Hlegs.
  destruct (Hlegs b (nth_error_In _ _ Hb)) as (_ & Hfrom & _).
  unfold from_candidates in Hfrom. rewrite Hi in Hfrom.
  rewrite (inv_destinations _ _ _ _ _ _ Hinv).
  repeat split; auto.
  - now apply nxt_candidates_iff.
  - now apply map_nth_error.
  - now apply map_nth_error.
Qed.

(** ** Goal count *)

Lemma make_episode_record_ok W ep_id scene src dests sd k geo s ep s' :
  make_episode_record W ep_id scene src dests sd k geo s = (Ok ep, s') ->
  episode_id ep = ep_id /\ scene_id ep = scene
  /\ start_position ep = src
  /\ (exists y w, start_rotation ep = [of_int 0; y; of_int 0; w])
  /\ goals ep = map (fun dst => {| position := dst; radius := sd |}) dests
  /\ info_difficulty ep = k
  /\ info_geodesic_distance ep = geo.
Proof.
  unfold make_episode_record. intros H. inv_bind H.
  apply ret_ok in H. destruct H as [<- _]. simpl.
  repeat split; eauto.
Qed.

(** C8 (as amended): the episode record assembled from a walk has
    max(1, goals-per-episode) goals: one for the first leg and one for each
    of the goals-per-episode - 1 chained legs. *)
Theorem goal_count_is_max_one_goals_per_ep
        W fuel nav_pts candidates min_d max_d m s w s'
        ep_id scene sd k st ep st' :
  episode_walk W fuel nav_pts candidates min_d max_d m s = (Ok w, s') ->
  make_episode_record W ep_id scene (w_src w) (w_destinations w) sd k
                      (w_tot_d w) st = (Ok ep, st') ->
  List.length (goals ep) = Z.to_nat (Z.max 1 m).
Proof.
  intros Hrun Hrec.
  apply episode_walk_ok in Hrun. destruct Hrun as [Hinv Hlen].
  apply make_episode_record_ok in Hrec.
  destruct Hrec as (_ & _ & _ & _ & Hg & _).
  rewrite Hg, length_map, (inv_destinations _ _ _ _ _ _ Hinv), length_map.
  rewrite Hlen. lia.
Qed.

(** ** Candidates *)

(** The pairs are the index pairs [i < j] below the number of points. *)
Lemma all_pairs_iff n i j : In (i, j) (all_pairs n) <-> (i < j < n)%nat.
Proof.
  unfold all_pairs. rewrite in_flat_map. split.
  - intros (i0 & Hi & Hj). apply in_map_iff in Hj.
    destruct Hj as (j0 & Heq & Hj). inversion Heq; subst.
    apply in_seq in Hi. apply in_seq in Hj. lia.
  - intros H. exists i. split.
    + apply in_seq. lia.
    + apply in_map_iff. exists j. split; auto. apply in_seq. lia.
Qed.

Lemma all_pairs_S n :
  all_pairs (S n)
  = map (fun j => (0, j)%nat) (seq 1 n)
    ++ map (fun ij => (S (fst ij), S (snd ij))) (all_pairs n).
Proof.
  unfold all_pairs. destruct n as [|n]; [reflexivity|].
  replace (S (S n) - 1)%nat with (S n) by lia.
  replace (S n - 1)%nat with n by lia.
  cbn [seq flat_map]. f_equal.
  rewrite <- seq_shift, !flat_map_concat_map, concat_map, !map_map.
  f_equal. apply map_ext. intros i.
  replace (S (S n) - S (S i))%nat with (S n - S i)%nat by lia.
  now rewrite <- seq_shift, !map_map.
Qed.



Section Pairs.

Variable W : World.




End Pairs.


(** ** Start position *)


(** ** Episode assembly and main *)

(** C1: [make_episode] builds the record with the id, the scene, the start
    position, a rotation about the vertical axis, one goal per destination,
    the difficulty label and the geodesic distance it is given, and then
    falls off its end: the value it hands back, and that main appends to
    the dataset, is [None], for every argument and in every state. *)
Theorem make_episode_returns_none
        W ep_id scene src destinations success_dist difficulty geo_dist s :
  exists episode s',
    make_episode_record W ep_id scene src destinations success_dist
                        difficulty geo_dist s = (Ok episode, s')
    /\ episode_id episode = ep_id
    /\ scene_id episode = scene
    /\ start_position episode = src
    /\ (exists y w, start_rotation episode = [of_int 0; y; of_int 0; w])
    /\ map position (goals episode) = destinations
    /\ Forall (fun g => radius g = success_dist) (goals episode)
    /\ info_difficulty episode = difficulty
    /\ info_geodesic_distance episode = geo_dist
    /\ make_episode W ep_id scene src destinations success_dist difficulty
                    geo_dist s = (Ok None, s').
Proof.
  eexists. eexists. split; [reflexivity|]. simpl.
  repeat split; eauto.
  - rewrite map_map. simpl. apply map_id.
  - apply Forall_map. simpl. apply Forall_forall. reflexivity.
Qed.

Lemma make_episode_ok W ep_id scene src dests sd k geo s v s' :
  make_episode W ep_id scene src dests sd k geo s = (Ok v, s') -> v = None.
Proof.
  unfold make_episode. intros H. split_bind H as ep s1 E.
  apply ret_ok in H. destruct H as [H _]. now symmetry.
Qed.

Lemma repeatM_length {A} (m : M A) n : forall s l s',
  repeatM n m s = (Ok l, s') -> List.length l = n.
Proof.
  induction n as [|n IH]; intros s l s' H; simpl in H.
  - apply ret_ok in H. destruct H as [<- _]. reflexivity.
  - inv_bind H. inv_bind H. apply ret_ok in H. destruct H as [<- _].
    simpl. f_equal. eauto.
Qed.

Lemma sequential_ids c n :
  py_str c :: map (fun i => py_str (c + 1 + Z.of_nat i)) (seq 0 n)
  = map (fun i => py_str (c + Z.of_nat i)) (seq 0 (S n)).
Proof.
  cbn [seq map]. rewrite Z.add_0_r. f_equal.
  rewrite <- seq_shift, map_map. apply map_ext.
  intros i. f_equal. lia.
Qed.

Lemma seq_offset k len : seq k len = map (fun i => (k + i)%nat) (seq 0 len).
Proof.
  revert k. induction len as [|len IH]; intros k; simpl.
  - reflexivity.
  - f_equal; [lia|]. rewrite (IH (S k)), (IH 1%nat), map_map.
    apply map_ext. intros i. lia.
Qed.

Section MainFacts.

Variable W : World.
Variable fuel : nat.
Variable nav_pts : list point.

Lemma episodes_loop_ok candidates min_d max_d k m n :
  forall c s rs c' s',
    episodes_loop W fuel nav_pts candidates min_d max_d n k m c s
    = (Ok (rs, c'), s') ->
    c' = c + Z.of_nat n
    /\ map as_id rs = map (fun i => py_str (c + Z.of_nat i)) (seq 0 n)
    /\ Forall (fun r => as_difficulty r = k
                        /\ pass_of W fuel nav_pts candidates min_d max_d m r)
           rs.
Proof.
  induction n as [|n IH]; intros c s rs c' s' H; simpl in H.
  - apply ret_ok in H. destruct H as [H _]. inversion H; subst.
    repeat split; auto. lia.
  - split_bind H as w s1 Ew. split_bind H as e s2 Ee.
    apply make_episode_ok in Ee. subst e.
    split_bind H as x s3 Ex. destruct x as [rest c1].
    apply ret_ok in H. destruct H as [H _]. inversion H; subst.
    apply IH in Ex. destruct Ex as (Hc & Hid & Hall).
    split; [lia|]. split.
    + cbn [map as_id]. rewrite Hid. apply sequential_ids.
    + constructor; auto. simpl. repeat split; auto.
      unfold pass_of. simpl. eauto.
Qed.

Lemma buckets_loop_ok pairs euc_dists m difficulties :
  forall c s rs s',
    buckets_loop W fuel difficulties nav_pts pairs euc_dists m c s
    = (Ok rs, s') ->
    map as_id rs
    = map (fun i => py_str (c + Z.of_nat i)) (seq 0 (List.length rs))
    /\ Forall (fun r =>
                 exists n_ep min_d max_d,
                   In (as_difficulty r, (n_ep, min_d, max_d)) difficulties
                   /\ pass_of W fuel nav_pts
                              (filter_candidates min_d max_d pairs euc_dists)
                              min_d max_d m r) rs.
Proof.
  induction difficulties as [|[k [[n_ep min_d] max_d]] rest IH];
    intros c s rs s' H; simpl in H.
  - apply ret_ok in H. destruct H as [<- _]. split; auto.
  - split_bind H as x s1 Ex. destruct x as [eps c1].
    split_bind H as more s2 Em.
    apply ret_ok in H. destruct H as [<- _].
    apply episodes_loop_ok in Ex. destruct Ex as (Hc & Hid & Hall).
    apply IH in Em. destruct Em as (Hid' & Hall').
    assert (Hlen : List.length eps = Z.to_nat n_ep).
    { rewrite <- (length_map as_id), Hid, length_map, length_seq.
      reflexivity. }
    split.
    + rewrite length_app, seq_app, !map_app, Hid, Hid', Hlen. f_equal.
      rewrite (seq_offset (0 + Z.to_nat n_ep)), map_map.
      apply map_ext. intros i. f_equal. lia.
    + apply Forall_app. split.
      * eapply Forall_impl; [|exact Hall].
        intros r [Hk Hp]. exists n_ep, min_d, max_d. rewrite Hk.
        split; [left; reflexivity|exact Hp].
      * eapply Forall_impl; [|exact Hall'].
        intros r (n' & lo & hi & Hin & Hp). exists n', lo, hi.
        split; [right; exact Hin|exact Hp].
Qed.

End MainFacts.

Lemma lift_ok {A} (r : result A) a s s' :
  lift r s = (Ok a, s') -> r = Ok a /\ s = s'.
Proof. unfold lift. intros H. now inversion H. Qed.

(** Every episode of a run of main: the ids count up from 0, the value
    appended is [None], and the walk was sampled for one of the parsed
    buckets among the candidates pre-filtered for its bounds. *)
Lemma main_body_ok W fuel args s rs s' :
  main_body W fuel args s = (Ok rs, s') ->
  exists difficulties nav_pts euc_dists,
    parse_difficulty_ratios args = Ok difficulties
    /\ List.length nav_pts
       = Z.to_nat ((n_goals_per_ep args + 1) * n_episodes args)
    /\ pairwise_distance W nav_pts = Ok euc_dists
    /\ map as_id rs
       = map (fun i => py_str (Z.of_nat i)) (seq 0 (List.length rs))
    /\ Forall (fun r =>
                 exists n_ep min_d max_d,
                   In (as_difficulty r, (n_ep, min_d, max_d)) difficulties
                   /\ pass_of W fuel nav_pts
                        (filter_candidates min_d max_d
                           (all_pairs (List.length nav_pts)) euc_dists)
                        min_d max_d (n_goals_per_ep args) r) rs.
Proof.
  unfold main_body. intros H.
  split_bind H as difficulties s1 Ep. apply lift_ok in Ep.
  destruct Ep as [Ep _].
  split_bind H as u1 s2 E1. split_bind H as pos s3 E2.
  split_bind H as u2 s4 E3. split_bind H as nav_pts s5 Epts.
  split_bind H as euc_dists s6 Ed. apply lift_ok in Ed.
  destruct Ed as [Ed _].
  apply repeatM_length in Epts.
  apply buckets_loop_ok in H. destruct H as [Hid Hall].
  exists difficulties, nav_pts, euc_dists.
  rewrite Epts. repeat split; auto.
Qed.

Lemma bucket_of_keeps n tot k r lo hi b :
  bucket_of n tot (k, r, lo, hi) = Ok b -> exists c, b = (k, (c, lo, hi)).
Proof.
  unfold bucket_of.
  destruct (py_truediv _ _) as [x| |]; simpl; try discriminate.
  destruct (py_int x) as [c| |]; simpl; try discriminate.
  intros H. inversion H. eauto.
Qed.

Lemma rmap_in {A B} (f : A -> result B) l : forall l' y,
  rmap f l = Ok l' -> In y l' -> exists x, In x l /\ f x = Ok y.
Proof.
  induction l as [|x l IH]; intros l' y H Hy; simpl in H.
  - inversion H; subst. contradiction.
  - destruct (f x) as [b| |] eqn:Ex; simpl in H; try discriminate.
    destruct (rmap f l) as [bs| |]; simpl in H; try discriminate.
    inversion H; subst. destruct Hy as [<-|Hy].
    + exists x. split; [left; reflexivity|exact Ex].
    + destruct (IH bs y eq_refl Hy) as (x' & Hin & Hx').
      exists x'. split; [right; exact Hin|exact Hx'].
Qed.

Lemma zip4_in {A B C D} (a : A) (b : B) (c : C) (d : D) la :
  forall lb lc ld,
    In (a, b, c, d) (zip4 la lb lc ld) ->
    In (a, (c, d)) (combine la (combine lc ld)).
Proof.
  induction la as [|x la IH]; intros [|y lb] [|z lc] [|w ld] H;
    simpl in H; try contradiction.
  destruct H as [H|H].
  - inversion H; subst. left. reflexivity.
  - right. eapply IH; eauto.
Qed.

(** The buckets returned by the parser carry the fixed labels and bounds. *)
Lemma parsed_bucket_bounds args difficulties k n_ep min_d max_d :
  parse_difficulty_ratios args = Ok difficulties ->
  In (k, (n_ep, min_d, max_d)) difficulties ->
  In (k, (min_d, max_d)) bucket_bounds.
Proof.
  unfold parse_difficulty_ratios.
  destruct (_ || _); [discriminate|].
  intros H Hin.
  destruct (rmap_in _ _ _ _ H Hin) as ([[[k' r] lo] hi] & Hz & Hb).
  apply bucket_of_keeps in Hb. destruct Hb as [c Hb].
  inversion Hb; subst.
  eapply zip4_in; eauto.
Qed.

Lemma bucket_bounds_finite k min_d max_d :
  In (k, (min_d, max_d)) bucket_bounds ->
  exists lo hi, min_d = Fin lo /\ max_d = Fin hi /\ (0 < lo)%Q.
Proof.
  unfold bucket_bounds. simpl.
  intros [H|[H|[H|[H|[]]]]]; inversion H; subst;
    eexists; eexists; repeat split.
Qed.

(** The legs of the episodes of main lie within the bounds of the bucket
    whose label the episode is given. *)
Corollary main_legs_within_bounds W fuel args s rs s' r :
  main_body W fuel args s = (Ok rs, s') ->
  In r rs ->
  exists lo hi,
    In (as_difficulty r, (Fin lo, Fin hi)) bucket_bounds
    /\ forall leg, In leg (w_legs (as_walk r)) ->
         is_nan (dr_d leg) = false ->
         fle (Fin lo) (dr_d leg) = true
         /\ fle (dr_d leg) (Fin hi) = true
         /\ fle MIN_DIST_RATIO (fdiv (dr_d leg) (dr_euc leg)) = true.
Proof.
  intros Hrun Hin.
  apply main_body_ok in Hrun.
  destruct Hrun as (ds & pts & euc & Hp & _ & _ & _ & Hall).
  rewrite Forall_forall in Hall.
  destruct (Hall r Hin) as (n_ep & min_d & max_d & Hb & _ & st & st' & Hw).
  pose proof (parsed_bucket_bounds _ _ _ _ _ _ Hp Hb) as Hbb.
  destruct (bucket_bounds_finite _ _ _ Hbb) as (lo & hi & -> & -> & Hlo).
  exists lo, hi. split; auto.
  intros leg Hleg Hd.
  apply episode_walk_ok in Hw. destruct Hw as [Hinv _].
  pose proof (inv_legs _ _ _ _ _ _ Hinv) as Hlegs.
  rewrite Forall_forall in Hlegs.
  destruct (Hlegs leg Hleg) as (Hc & Hfrom & _).
  apply accepted_number_in_range; auto.
  eapply prefiltered_euc_not_nan; eauto.
Qed.

(** The dataset handed to the writer holds [None] for every episode. *)
Lemma main_dataset_all_none W fuel args s ds s' :
  main W fuel args s = (Ok ds, s') -> Forall (fun v => v = None) ds.
Proof.
  unfold main. intros H. split_bind H as rs s1 E.
  apply ret_ok in H. destruct H as [<- _].
  apply main_body_ok in E.
  destruct E as (ds & pts & euc & _ & _ & _ & _ & Hall).
  apply Forall_map. eapply Forall_impl; [|exact Hall].
  intros r (n_ep & lo & hi & _ & Hv & _). exact Hv.
Qed.

(** When the ratios are refused, main stops there: no draw is taken and
    the simulator is not created, seeded or queried. *)
Lemma ratios_fail_before_simulator W fuel args s e :
  parse_difficulty_ratios args = Raise e ->
  main W fuel args s = (Raise e, s).
Proof.
  intros H. unfold main, main_body, bind, lift. now rewrite H.
Qed.

(** ** The corridor runs *)

Import Corridor.



(** With paths blocked beyond two metres, the two draws that join points
    three metres apart get an infinite distance and are rejected. *)
Lemma unreachable_distance_is_rejected_witness :
  loop_cond (Fin 1) (Fin 3)
            {| dr_i := 0; dr_j := 3; dr_euc := Fin 3;
               dr_src := at_x 0; dr_dst := at_x 3; dr_d := PInf |} = true
  /\ exists w s',
      episode_walk (world tape blocked) 10%nat (points 8)
                   (very_easy (world tape blocked) 8) (Fin 1) (Fin 3) 3 start
      = (Ok w, s')
      /\ map dr_d (w_rejects w) = [PInf; PInf]
      /\ forall leg, In leg (w_legs w) -> ~ infinite_or_negative (dr_d leg).
Proof.
  pose proof (unreachable_distance_is_rejected 1 3 ltac:(discriminate))
    as (Hrej & _ & Hlegs).
  split.
  - apply Hrej. left. reflexivity.
  - eexists. eexists. split; [vm_compute; reflexivity|].
    split; [reflexivity|].
    eapply (Hlegs (world tape blocked) 10%nat (points 8)
                 (very_easy (world tape blocked) 8) 3 start).
    vm_compute. reflexivity.
Defined.

(** C6 (as stated) fails for NaN: with a simulator that answers NaN, no
    draw is rejected and every leg carries the NaN distance. *)
Lemma nan_distance_is_not_rejected :
  exists w s',
    episode_walk (world tape undefined) 10%nat (points 8)
                 (very_easy (world tape undefined) 8) (Fin 1) (Fin 3) 3 start
    = (Ok w, s')
    /\ w_rejects w = []
    /\ map dr_d (w_legs w) = [NaN; NaN; NaN]
    /\ Forall (fun leg => loop_cond (Fin 1) (Fin 3) leg = false) (w_legs w).
Proof.
  eexists. eexists. split; [vm_compute; reflexivity|].
  split; [reflexivity|]. split; [reflexivity|].
  repeat constructor.
Qed.

(** The corridor walk goes 0 -> 2 -> 3 -> 1: each leg leaves from the
    destination of the one before. *)
Lemma chained_legs_are_connected_witness :
  exists w s',
    episode_walk (world tape detour) 10%nat (points 8)
                 (very_easy (world tape detour) 8) (Fin 1) (Fin 3) 3 start
    = (Ok w, s')
    /\ map (fun a => (dr_i a, dr_j a)) (w_legs w)
       = [(0, 2); (2, 3); (3, 1)]%nat
    /\ forall k a b,
        nth_error (w_legs w) k = Some a ->
        nth_error (w_legs w) (S k) = Some b ->
        In (dr_j b, dr_euc b)
           (nxt_candidates (very_easy (world tape detour) 8) (dr_j a))
        /\ (In ((dr_j a, dr_j b), dr_euc b) (very_easy (world tape detour) 8)
            \/ In ((dr_j b, dr_j a), dr_euc b)
                  (very_easy (world tape detour) 8))
        /\ dr_src b = dr_dst a
        /\ nth_error (w_destinations w) k = Some (dr_dst a)
        /\ nth_error (w_destinations w) (S k) = Some (dr_dst b).
Proof.
  eexists. eexists. split; [vm_compute; reflexivity|].
  split; [reflexivity|].
  eapply (chained_legs_are_connected (world tape detour) 10%nat (points 8)
           (very_easy (world tape detour) 8) (Fin 1) (Fin 3) 3 start).
  vm_compute. reflexivity.
Defined.

(** Three goals per episode: the record built from the corridor walk has
    three goals. *)
Lemma goal_count_is_max_one_goals_per_ep_witness :
  exists w s' ep st',
    episode_walk (world tape detour) 10%nat (points 8)
                 (very_easy (world tape detour) 8) (Fin 1) (Fin 3) 3 start
    = (Ok w, s')
    /\ make_episode_record (world tape detour) "0" "corridor.glb" (w_src w)
                           (w_destinations w) (Fin (2 # 10)) "very easy"
                           (w_tot_d w) s' = (Ok ep, st')
    /\ List.length (goals ep) = 3%nat.
Proof.
  eexists. eexists. eexists. eexists.
  split; [vm_compute; reflexivity|].
  split; [vm_compute; reflexivity|].
  eapply (goal_count_is_max_one_goals_per_ep (world tape detour) 10
            (points 8) (very_easy (world tape detour) 8) (Fin 1) (Fin 3) 3
            start _ ?[after] "0" "corridor.glb" (Fin (2 # 10)) "very easy"
            ?after);
    vm_compute; reflexivity.
Defined.

(** C8 (as stated) fails for goals-per-episode 0: the first leg is always
    sampled, so the episode record has one goal. *)
Lemma zero_goals_per_ep_gives_one_goal :
  exists w s' ep st',
    episode_walk (world tape detour) 10%nat (points 2)
                 (very_easy (world tape detour) 2) (Fin 1) (Fin 3) 0 start
    = (Ok w, s')
    /\ make_episode_record (world tape detour) "0" "corridor.glb" (w_src w)
                           (w_destinations w) (Fin (2 # 10)) "very easy"
                           (w_tot_d w) s' = (Ok ep, st')
    /\ List.length (goals ep) = 1%nat
    /\ List.length (goals ep) <> Z.to_nat 0.
Proof.
  eexists. eexists. eexists. eexists.
  split; [vm_compute; reflexivity|].
  split; [vm_compute; reflexivity|].
  split; [reflexivity|discriminate].
Qed.



(** In that run the first leg leaves from the point at 0 m, the final leg
    from the point at 3 m, and the start position is the latter. *)
Example start_is_not_first_source :
  exists w s' first,
    episode_walk (world tape detour) 10%nat (points 8)
                 (very_easy (world tape detour) 8) (Fin 1) (Fin 3) 3 start
    = (Ok w, s')
    /\ hd_error (w_legs w) = Some first
    /\ dr_src first = at_x 0
    /\ w_src w = at_x 3.
Proof.
  eexists. eexists. eexists. split; [vm_compute; reflexivity|].
  repeat split.
Qed.

Import Corridor.
(** C2: two runs with the same arguments, seed 42 included, in the same
    scene, whose interpreters start the global [random] generator in
    different states: the seed reaches the simulator only, the candidate
    choices come from the global generator, and the two episodes follow
    different legs.  The start orientations drawn by [make_episode] differ
    as well. *)
Theorem same_seed_different_walks :
  let a := args 1 2 [1; 0; 0; 0] 42 in
  let first := world [0; 1; 2]%N detour in
  let second := world [2; 1; 0]%N detour in
  let legs := fun r => map (fun l => (dr_i l, dr_j l)) (w_legs (as_walk r)) in
  (exists r1 s1 r2 s2,
      main_body first 10 a start = (Ok r1, s1)
      /\ main_body second 10 a start = (Ok r2, s2)
      /\ sim_seed s1 = 42 /\ sim_seed s2 = 42
      /\ map legs r1 = [[(0, 1); (1, 0)]]%nat
      /\ map legs r2 = [[(1, 2); (2, 1)]]%nat)
  /\ (exists e1 t1 e2 t2,
         make_episode_record first "0" "corridor.glb" (at_x 1)
                             [at_x 1; at_x 0] (Fin (2 # 10)) "very easy"
                             (of_int 3) start = (Ok e1, t1)
         /\ make_episode_record second "0" "corridor.glb" (at_x 1)
                                [at_x 1; at_x 0] (Fin (2 # 10)) "very easy"
                                (of_int 3) start = (Ok e2, t2)
         /\ start_rotation e1 <> start_rotation e2).
Proof.
  split.
  - do 4 eexists. split; [vm_compute; reflexivity|].
    split; [vm_compute; reflexivity|].
    repeat split.
  - do 4 eexists. split; [vm_compute; reflexivity|].
    split; [vm_compute; reflexivity|].
    simpl. discriminate.
Qed.

(** * More of the generator *)

(** ** sample_point *)

Lemma sample_point_cond_run W height radius pt s :
  sample_point_cond W height radius pt s
  = (Ok (resample W height radius pt),
     {| py_pos := py_pos s; sim_seed := sim_seed s; sim_pos := sim_pos s;
        sim_log := sim_log s ++ [CallIslandRadius pt] |}).
Proof. reflexivity. Qed.

Lemma sample_point_loop_ok W height radius n :
  forall base pt s r s',
    sim_pos s = S base ->
    pt = navigable W (sim_seed s) base ->
    sample_point_loop W n height radius pt s = (Ok r, s') ->
    exists k,
      (k <= n)%nat
      /\ r = navigable W (sim_seed s) (base + k)
      /\ sim_pos s' = S (base + k)
      /\ sim_seed s' = sim_seed s
      /\ py_pos s' = py_pos s
      /\ resample W height radius r = false
      /\ forall i, (i < k)%nat ->
           resample W height radius (navigable W (sim_seed s) (base + i))
           = true.
Proof.
  induction n as [|n IH]; intros base pt s r s' Hpos Hpt H;
    cbn [sample_point_loop] in H; unfold bind at 1 in H;
    rewrite sample_point_cond_run in H;
    destruct (resample W height radius pt) eqn:Ers.
  - discriminate.
  - apply ret_ok in H. destruct H as [<- <-]. exists 0%nat.
    rewrite Nat.add_0_r. simpl.
    repeat split; auto; try lia; try congruence.
  - unfold bind at 1 in H. cbn [sim_sample_navigable_point] in H.
    eapply IH with (base := S base) in H; [|simpl; congruence|simpl; congruence].
    destruct H as (k & Hk & Hr & Hp & Hs & Hy & Hacc & Hrej).
    simpl in *. exists (S k).
    rewrite <- !plus_n_Sm. repeat split; auto; try lia.
    intros i Hi. destruct i as [|i].
    + rewrite Nat.add_0_r. congruence.
    + rewrite <- plus_n_Sm. apply Hrej. lia.
  - apply ret_ok in H. destruct H as [<- <-]. exists 0%nat.
    rewrite Nat.add_0_r. simpl.
    repeat split; auto; try lia; try congruence.
Qed.

(** X1: when [sample_point] returns, the point is the first one of the
    simulator's stream, from the current position on, for which the loop
    condition is false: every earlier one was refused, the stream has
    advanced just past the returned point, and neither the seed nor the
    global generator was touched. *)
Theorem sample_point_returns_first_kept W fuel height radius s pt s' :
  sample_point W fuel height radius s = (Ok pt, s') ->
  exists k,
    (k <= fuel)%nat
    /\ pt = navigable W (sim_seed s) (sim_pos s + k)
    /\ resample W height radius pt = false
    /\ (forall i, (i < k)%nat ->
          resample W height radius (navigable W (sim_seed s) (sim_pos s + i))
          = true)
    /\ sim_pos s' = S (sim_pos s + k)
    /\ sim_seed s' = sim_seed s
    /\ py_pos s' = py_pos s.
Proof.
  unfold sample_point. intros H. unfold bind at 1 in H.
  cbn [sim_sample_navigable_point] in H.
  eapply sample_point_loop_ok with (base := sim_pos s) in H;
    [|reflexivity|reflexivity].
  destruct H as (k & Hk & Hr & Hp & Hs & Hy & Hacc & Hrej).
  simpl in *. exists k. repeat split; auto.
Qed.

(** On the islet corridor the points at 0 m and 1 m are refused and the
    point at 2 m is returned. *)
Lemma sample_point_returns_first_kept_witness :
  exists s',
    sample_point Islets.world 5 (Some (of_int 0)) MIN_ISLAND_RADIUS
                 Corridor.start = (Ok (Corridor.at_x 2), s')
    /\ exists k,
        (k <= 5)%nat
        /\ Corridor.at_x 2 = navigable Islets.world 0 (0 + k)
        /\ resample Islets.world (Some (of_int 0)) MIN_ISLAND_RADIUS
                    (Corridor.at_x 2) = false
        /\ (forall i, (i < k)%nat ->
              resample Islets.world (Some (of_int 0)) MIN_ISLAND_RADIUS
                       (navigable Islets.world 0 (0 + i)) = true)
        /\ sim_pos s' = S (0 + k)
        /\ sim_seed s' = 0
        /\ py_pos s' = 0%nat.
Proof.
  eexists. split; [vm_compute; reflexivity|].
  eapply (sample_point_returns_first_kept Islets.world 5 (Some (of_int 0))
            MIN_ISLAND_RADIUS Corridor.start).
  vm_compute. reflexivity.
Defined.

Lemma sample_point_loop_finds W height radius k :
  forall n base pt s,
    (k <= n)%nat ->
    sim_pos s = S base ->
    pt = navigable W (sim_seed s) base ->
    (forall i, (i < k)%nat ->
       resample W height radius (navigable W (sim_seed s) (base + i))
       = true) ->
    resample W height radius (navigable W (sim_seed s) (base + k)) = false ->
    exists s',
      sample_point_loop W n height radius pt s
      = (Ok (navigable W (sim_seed s) (base + k)), s')
      /\ sim_pos s' = S (base + k).
Proof.
  induction k as [|k IH]; intros n base pt s Hk Hpos Hpt Hrej Hacc.
  - rewrite Nat.add_0_r in *. subst pt.
    destruct n; cbn [sample_point_loop]; unfold bind at 1;
      rewrite sample_point_cond_run, Hacc; eexists; split;
        try reflexivity; simpl; lia.
  - destruct n as [|n]; [lia|].
    cbn [sample_point_loop]. unfold bind at 1.
    rewrite sample_point_cond_run.
    assert (E : resample W height radius pt = true).
    { subst pt. rewrite <- (Nat.add_0_r base). apply Hrej. lia. }
    rewrite E. unfold bind at 1. cbn [sim_sample_navigable_point].
    match goal with
    | |- context [sample_point_loop W n height radius ?p ?st] =>
        destruct (IH n (S base) p st) as (s' & Hrun & Hp)
    end; simpl; try lia; try congruence.
    + intros i Hi. rewrite plus_n_Sm. apply Hrej. lia.
    + rewrite plus_n_Sm. exact Hacc.
    + exists s'. simpl in Hrun. rewrite <- plus_n_Sm. split; auto.
Qed.

(** X2: if the loop condition holds of the next [k] points of the
    simulator's stream and fails for the one after them, and the loop is
    given at least [k] passes, [sample_point] returns that point and leaves
    the stream just past it. *)
Theorem sample_point_finds_first_kept W fuel height radius s k :
  (k <= fuel)%nat ->
  (forall i, (i < k)%nat ->
     resample W height radius (navigable W (sim_seed s) (sim_pos s + i))
     = true) ->
  resample W height radius (navigable W (sim_seed s) (sim_pos s + k))
  = false ->
  exists s',
    sample_point W fuel height radius s
    = (Ok (navigable W (sim_seed s) (sim_pos s + k)), s')
    /\ sim_pos s' = S (sim_pos s + k).
Proof.
  intros Hk Hrej Hacc. unfold sample_point. unfold bind at 1.
  cbn [sim_sample_navigable_point].
  match goal with
  | |- context [sample_point_loop W fuel height radius ?p ?st] =>
      destruct (sample_point_loop_finds W height radius k fuel
                  (sim_pos s) p st) as (s' & Hrun & Hp)
  end; simpl; auto.
  exists s'. split; auto.
Qed.

(** On the islet corridor two points are refused before the point at 2 m. *)
Lemma sample_point_finds_first_kept_witness :
  exists s',
    sample_point Islets.world 5 (Some (of_int 0)) MIN_ISLAND_RADIUS
                 Corridor.start = (Ok (Corridor.at_x 2), s')
    /\ sim_pos s' = 3%nat.
Proof.
  refine (sample_point_finds_first_kept Islets.world 5 (Some (of_int 0))
            MIN_ISLAND_RADIUS Corridor.start 2 _ _ _).
  - repeat constructor.
  - intros [|[|i]] Hi; try reflexivity. lia.
  - reflexivity.
Defined.

(** ** Pairs and candidates *)

Lemma NoDup_map_injective {A B} (f : A -> B) (l : list A) :
  (forall x y, f x = f y -> x = y) -> NoDup l -> NoDup (map f l).
Proof.
  intros Hf. induction 1 as [|x l Hx Hl IH]; simpl; constructor; auto.
  rewrite in_map_iff. intros (y & E & Hy). apply Hf in E. now subst.
Qed.

Lemma all_pairs_NoDup n : NoDup (all_pairs n).
Proof.
  induction n as [|n IH]; [constructor|].
  rewrite all_pairs_S. apply NoDup_app.
  - apply NoDup_map_injective; [|apply seq_NoDup].
    intros x y E. now inversion E.
  - apply NoDup_map_injective; auto.
    intros [a b] [c d] E. simpl in E. now inversion E.
  - intros [i j] H1 H2. apply in_map_iff in H1, H2.
    destruct H1 as (x & E1 & _), H2 as ([a b] & E2 & _).
    simpl in E2. congruence.
Qed.

Lemma all_pairs_length n :
  (2 * List.length (all_pairs n) = n * (n - 1))%nat.
Proof.
  induction n as [|n IH]; [reflexivity|].
  rewrite all_pairs_S, length_app, !length_map, length_seq.
  destruct n as [|n]; [reflexivity|].
  simpl in *. nia.
Qed.

(** X3: [pairs] lists every pair of indices [i < j] below the number of
    points, and only those, each exactly once: n (n - 1) / 2 pairs. *)
Theorem pairs_enumerate_each_pair_once n :
  (forall i j, In (i, j) (all_pairs n) <-> (i < j < n)%nat)
  /\ NoDup (all_pairs n)
  /\ (2 * List.length (all_pairs n) = n * (n - 1))%nat.
Proof.
  split; [intros; apply all_pairs_iff|].
  split; [apply all_pairs_NoDup|apply all_pairs_length].
Qed.


Lemma fle_between_finite a b x :
  fle (Fin a) x = true -> fle x (Fin b) = true ->
  exists e, x = Fin e /\ (a <= e)%Q /\ (e <= b)%Q.
Proof.
  destruct x as [e| | |]; simpl; intros H1 H2; try discriminate.
  apply fle_Fin in H1, H2. eauto.
Qed.

(** X5: for each of the four buckets, the Euclidean distance stored with a
    candidate is a finite number between 0.8 and 24: the division
    [d / euc_d] of the loop condition never has a zero, infinite or NaN
    divisor. *)
Theorem bucket_candidates_have_positive_distance
        k min_d max_d pairs euc_dists c :
  In (k, (min_d, max_d)) bucket_bounds ->
  In c (filter_candidates min_d max_d pairs euc_dists) ->
  exists e, snd c = Fin e /\ (8 # 10 <= e)%Q /\ (e <= 24)%Q.
Proof.
  intros Hb Hc. unfold filter_candidates in Hc. apply filter_In in Hc.
  destruct Hc as [_ Hc]. unfold prefilter in Hc.
  apply andb_true_iff in Hc. destruct Hc as [H1 H2].
  unfold bucket_bounds in Hb. simpl in Hb.
  destruct Hb as [Hb|[Hb|[Hb|[Hb|[]]]]]; inversion Hb; subst;
    cbn [fmul] in H1, H2;
    destruct (fle_between_finite _ _ _ H1 H2) as (e & He & Hlo & Hhi);
    exists e; (split; [exact He|]); split.
  all: try (eapply Qle_trans; [|exact Hlo]; discriminate).
  all: eapply Qle_trans; [exact Hhi|]; discriminate.
Qed.

Lemma bucket_candidates_have_positive_distance_witness :
  exists e, snd ((0, 3)%nat, Fin 3) = Fin e /\ (8 # 10 <= e)%Q /\ (e <= 24)%Q.
Proof.
  apply (bucket_candidates_have_positive_distance
           "very easy" (Fin 1) (Fin 3) (all_pairs 8)
           (pdist (Corridor.world Corridor.tape Corridor.detour)
                  (Corridor.points 8))).
  - left. reflexivity.
  - vm_compute. intuition.
Defined.

Lemma filter_candidates_in_range min_d max_d n euc_dists :
  in_range n (filter_candidates min_d max_d (all_pairs n) euc_dists).
Proof.
  intros i j e H. unfold filter_candidates in H. apply filter_In in H.
  destruct H as [H _]. apply in_combine_l in H.
  apply all_pairs_iff in H. lia.
Qed.

Lemma filter_candidates_ordered min_d max_d n euc_dists i j e :
  In ((i, j), e) (filter_candidates min_d max_d (all_pairs n) euc_dists) ->
  (i < j < n)%nat.
Proof.
  intros H. unfold filter_candidates in H. apply filter_In in H.
  destruct H as [H _]. apply in_combine_l in H. now apply all_pairs_iff.
Qed.

(** X6: with the candidates of main, no leg of a walk joins a point to
    itself: its two indices differ and are indices of sampled points, so
    the next goal is never the sampled point the agent is already at. *)
Theorem legs_join_two_different_points
        W fuel nav_pts min_d max_d n euc_dists m s w s' :
  episode_walk W fuel nav_pts
               (filter_candidates min_d max_d (all_pairs n) euc_dists)
               min_d max_d m s = (Ok w, s') ->
  forall leg, In leg (w_legs w) ->
    dr_i leg <> dr_j leg /\ (dr_i leg < n)%nat /\ (dr_j leg < n)%nat.
Proof.
  intros Hrun leg Hin.
  apply episode_walk_ok in Hrun. destruct Hrun as [Hinv _].
  pose proof (inv_legs _ _ _ _ _ _ Hinv) as Hlegs.
  rewrite Forall_forall in Hlegs.
  destruct (Hlegs leg Hin) as (_ & [Hc|Hc] & _);
    apply filter_candidates_ordered in Hc; lia.
Qed.

Lemma legs_join_two_different_points_witness :
  exists w s',
    episode_walk (Corridor.world Corridor.tape Corridor.detour) 10
                 (Corridor.points 8)
                 (Corridor.very_easy
                    (Corridor.world Corridor.tape Corridor.detour) 8)
                 (Fin 1) (Fin 3) 3 Corridor.start = (Ok w, s')
    /\ forall leg, In leg (w_legs w) ->
         dr_i leg <> dr_j leg /\ (dr_i leg < 8)%nat /\ (dr_j leg < 8)%nat.
Proof.
  eexists. eexists. split; [vm_compute; reflexivity|].
  eapply (legs_join_two_different_points
            (Corridor.world Corridor.tape Corridor.detour) 10%nat
            (Corridor.points 8) (Fin 1) (Fin 3) 8
            (pdist (Corridor.world Corridor.tape Corridor.detour)
                   (Corridor.points 8)) 3 Corridor.start).
  vm_compute. reflexivity.
Defined.

(** ** Rejection and totals *)

Lemma flt_true_fle_false x y : flt x y = true -> fle y x = false.
Proof.
  unfold flt, fle.
  destruct x as [a| | |], y as [b| | |]; simpl; try discriminate; auto.
  rewrite <- (Qcompare_antisym a b).
  destruct (a ?= b)%Q; simpl; auto; discriminate.
Qed.

Lemma loop_cond_true_not_admissible min_d max_d a :
  loop_cond min_d max_d a = true -> ~ admissible min_d max_d a.
Proof.
  unfold loop_cond, fgt, admissible. intros H (H1 & H2 & H3).
  apply orb_true_iff in H. destruct H as [H|H].
  - apply orb_true_iff in H. destruct H as [H|H];
      apply flt_true_fle_false in H; congruence.
  - apply flt_true_fle_false in H. congruence.
Qed.

(** X7: the loops reject no admissible draw: every rejected draw fails at
    least one of [min_d <= d], [d <= max_d] and
    [d / euc_d >= MIN_DIST_RATIO]. *)
Theorem rejected_draws_are_inadmissible
        W fuel nav_pts candidates min_d max_d m s w s' :
  episode_walk W fuel nav_pts candidates min_d max_d m s = (Ok w, s') ->
  forall a, In a (w_rejects w) -> ~ admissible min_d max_d a.
Proof.
  intros Hrun a Hin.
  apply episode_walk_ok in Hrun. destruct Hrun as [Hinv _].
  pose proof (inv_rejects _ _ _ _ _ _ Hinv) as Hrej.
  rewrite Forall_forall in Hrej.
  destruct (Hrej a Hin) as (Hc & _).
  now apply loop_cond_true_not_admissible.
Qed.

Lemma rejected_draws_are_inadmissible_witness :
  exists w s',
    episode_walk (Corridor.world Corridor.tape Corridor.detour) 10
                 (Corridor.points 8)
                 (Corridor.very_easy
                    (Corridor.world Corridor.tape Corridor.detour) 8)
                 (Fin 1) (Fin 3) 3 Corridor.start = (Ok w, s')
    /\ map dr_d (w_rejects w) = [Fin (9 # 2); Fin (9 # 2)]
    /\ forall a, In a (w_rejects w) -> ~ admissible (Fin 1) (Fin 3) a.
Proof.
  eexists. eexists. split; [vm_compute; reflexivity|].
  split; [reflexivity|].
  eapply (rejected_draws_are_inadmissible
            (Corridor.world Corridor.tape Corridor.detour) 10%nat
            (Corridor.points 8)
            (Corridor.very_easy
               (Corridor.world Corridor.tape Corridor.detour) 8)
            (Fin 1) (Fin 3) 3 Corridor.start).
  vm_compute. reflexivity.
Defined.



(** ** Exceptions *)

Lemma bind_raise {A B} (m : M A) (k : A -> M B) s e s' :
  bind m k s = (Raise e, s') ->
  m s = (Raise e, s')
  \/ exists a s1, m s = (Ok a, s1) /\ k a s1 = (Raise e, s').
Proof.
  unfold bind. destruct (m s) as [[a|x|] s1]; intros H.
  - right. eauto.
  - left. now inversion H.
  - discriminate.
Qed.

Lemma ret_raise {A} (a : A) s e s' : ret a s <> (Raise e, s').
Proof. discriminate. Qed.

Lemma retry_raise {A} (body : M A) (again : A -> bool) fuel :
  forall s e s',
    retry fuel body again s = (Raise e, s') ->
    exists s0, body s0 = (Raise e, s').
Proof.
  induction fuel as [|fuel IH]; intros s e s' H; simpl in H.
  - discriminate.
  - apply bind_raise in H. destruct H as [H|(a & s1 & Ha & H)]; eauto.
    destruct (again a).
    + apply bind_raise in H. destruct H as [H|([rej r] & s2 & _ & H)]; eauto.
      now apply ret_raise in H.
    + now apply ret_raise in H.
Qed.

Lemma index_raise {A} (l : list A) i s e s' :
  index l i s = (Raise e, s') ->
  (List.length l <= i)%nat /\ e = IndexError /\ s' = s.
Proof.
  unfold index. destruct (nth_error l i) eqn:E.
  - intros H. now apply ret_raise in H.
  - intros H. inversion H; subst. apply nth_error_None in E. auto.
Qed.

Lemma random_choice_raise W {A} (seq : list A) s e s' :
  random_choice W seq s = (Raise e, s') ->
  seq = [] /\ e = IndexError /\ s' = s.
Proof.
  destruct seq as [|x seq]; unfold random_choice.
  - intros H. inversion H. auto.
  - intros H. apply bind_raise in H.
    destruct H as [H|(k & s1 & _ & H)]; [discriminate|].
    apply index_raise in H. destruct H as [H _]. exfalso.
    remember (List.length (x :: seq)) as n eqn:En.
    assert (Hn : (0 < n)%nat) by (subst n; simpl; lia).
    assert (Hm : (N.modulo k (N.of_nat n) < N.of_nat n)%N)
      by (apply N.mod_lt; lia).
    lia.
Qed.

Lemma sim_geodesic_distance_raise W a b s e s' :
  sim_geodesic_distance W a b s <> (Raise e, s').
Proof. discriminate. Qed.

Section WalkExceptions.

Variable W : World.
Variable fuel : nat.
Variable nav_pts : list point.
Variable candidates : list candidate.
Variables min_d max_d : float.

Hypothesis Hrange : in_range (List.length nav_pts) candidates.

Lemma first_leg_body_raise s e s' :
  first_leg_body W nav_pts candidates s = (Raise e, s') ->
  candidates = [] /\ e = IndexError /\ s' = s.
Proof.
  unfold first_leg_body. intros H.
  apply bind_raise in H. destruct H as [H|(c & s1 & Hc & H)].
  - now apply random_choice_raise in H.
  - exfalso. apply random_choice_in in Hc. destruct c as [[i j] x].
    destruct (Hrange i j x Hc) as [Hi Hj]. simpl in H.
    apply bind_raise in H. destruct H as [H|(p & s2 & _ & H)].
    { apply index_raise in H. lia. }
    apply bind_raise in H. destruct H as [H|(q & s3 & _ & H)].
    { apply index_raise in H. lia. }
    apply bind_raise in H. destruct H as [H|(d & s4 & _ & H)].
    { now apply sim_geodesic_distance_raise in H. }
    now apply ret_raise in H.
Qed.

Lemma touches_in_range last : touches candidates last ->
  (last < List.length nav_pts)%nat.
Proof.
  intros (j & x & [H|H]); apply Hrange in H; lia.
Qed.

Lemma next_leg_body_raise last s e s' :
  touches candidates last ->
  next_leg_body W nav_pts last (nxt_candidates candidates last) s
  <> (Raise e, s').
Proof.
  intros Ht H. unfold next_leg_body in H.
  apply bind_raise in H. destruct H as [H|([j x] & s1 & Hc & H)].
  - apply random_choice_raise in H. destruct H as [H _].
    destruct Ht as (j & x & Hin).
    apply (nxt_candidates_iff candidates last j x) in Hin.
    rewrite H in Hin. contradiction.
  - apply random_choice_in in Hc. apply nxt_candidates_iff in Hc.
    assert (Hj : (j < List.length nav_pts)%nat)
      by (destruct Hc as [Hc|Hc]; apply Hrange in Hc; lia).
    pose proof (touches_in_range last Ht) as Hl. simpl in H.
    apply bind_raise in H. destruct H as [H|(p & s2 & _ & H)].
    { apply index_raise in H. lia. }
    apply bind_raise in H. destruct H as [H|(q & s3 & _ & H)].
    { apply index_raise in H. lia. }
    apply bind_raise in H. destruct H as [H|(d & s4 & _ & H)].
    { now apply sim_geodesic_distance_raise in H. }
    now apply ret_raise in H.
Qed.

Lemma chain_raise n : forall w s e s',
  touches candidates (w_last w) ->
  chain W fuel nav_pts candidates min_d max_d n w s <> (Raise e, s').
Proof.
  induction n as [|n IH]; intros w s e s' Ht H; simpl in H.
  - now apply ret_raise in H.
  - apply bind_raise in H. destruct H as [H|([rej a] & s1 & Hr & H)].
    + apply retry_raise in H. destruct H as (s0 & H).
      now apply next_leg_body_raise in H.
    + apply (retry_ok (fun x => dr_i x = w_last w
                        /\ In (dr_j x, dr_euc x)
                              (nxt_candidates candidates (w_last w))
                        /\ located W nav_pts x)) in Hr.
      2:{ intros. eapply next_leg_body_ok; eauto. }
      destruct Hr as [[(_ & Hnxt & _) _] _].
      apply IH in H; auto. simpl.
      apply nxt_candidates_iff in Hnxt.
      exists (w_last w), (dr_euc a). tauto.
Qed.

Lemma episode_walk_raise m s e s' :
  episode_walk W fuel nav_pts candidates min_d max_d m s = (Raise e, s') ->
  candidates = [] /\ e = IndexError /\ s' = s.
Proof.
  unfold episode_walk. intros H.
  apply bind_raise in H. destruct H as [H|([rej a] & s1 & Hr & H)].
  - destruct fuel as [|f]; [discriminate|]. simpl in H.
    apply bind_raise in H. destruct H as [H|(a & s1 & Ha & H)].
    + now apply first_leg_body_raise in H.
    + exfalso. destruct (loop_cond min_d max_d a).
      * apply bind_raise in H.
        destruct H as [H|([rej r] & s2 & _ & H)];
          [|now apply ret_raise in H].
        apply retry_raise in H. destruct H as (s0 & H).
        apply first_leg_body_raise in H. destruct H as [H _].
        apply first_leg_body_ok in Ha. destruct Ha as [Ha _].
        rewrite H in Ha. contradiction.
      * now apply ret_raise in H.
  - exfalso.
    apply (retry_ok (fun x => In ((dr_i x, dr_j x), dr_euc x) candidates
                              /\ located W nav_pts x)) in Hr.
    2:{ intros. eapply first_leg_body_ok; eauto. }
    destruct Hr as [[(Hin & _) _] _].
    apply chain_raise in H; auto. simpl.
    exists (dr_i a), (dr_euc a). auto.
Qed.

End WalkExceptions.

(** X9: when every candidate joins indices of sampled points, the sampling
    of one episode raises in one case only: the candidate list is empty,
    and then [random.choice] raises IndexError in the first pass of the
    first loop, before any draw or simulator call.  Once a first leg is
    accepted, the chained loops never raise: their candidate list is never
    empty. *)
Theorem walk_raises_only_without_candidates
        W fuel nav_pts candidates min_d max_d m s e s' :
  in_range (List.length nav_pts) candidates ->
  episode_walk W fuel nav_pts candidates min_d max_d m s = (Raise e, s') ->
  candidates = [] /\ e = IndexError /\ s' = s.
Proof. intros Hr H. eapply episode_walk_raise; eauto. Qed.

(** With two sampled points one metre apart no pair reaches the 13 m of
    the "hard" bucket. *)
Lemma walk_raises_only_without_candidates_witness :
  filter_candidates (Fin 13) (Fin 20) (all_pairs 2)
    (pdist (Corridor.world Corridor.tape Corridor.detour)
           (Corridor.points 2)) = []
  /\ IndexError = IndexError
  /\ Corridor.start = Corridor.start.
Proof.
  apply (walk_raises_only_without_candidates
           (Corridor.world Corridor.tape Corridor.detour) 10%nat
           (Corridor.points 2) _ (Fin 13) (Fin 20) 3 Corridor.start
           IndexError Corridor.start).
  - apply (filter_candidates_in_range (Fin 13) (Fin 20) 2).
  - reflexivity.
Defined.

(** ** More on the difficulty ratios *)









(** ** main as a whole *)


















(** ** What a walk consumes *)

Lemma queried_refl s : queried s s 0.
Proof.
  unfold queried. repeat split; auto.
  exists []. rewrite app_nil_r. auto.
Qed.

Lemma queried_trans s s1 s2 n k :
  queried s s1 n -> queried s1 s2 k -> queried s s2 (n + k).
Proof.
  intros (P1 & S1 & Q1 & c1 & L1 & N1 & F1) (P2 & S2 & Q2 & c2 & L2 & N2 & F2).
  unfold queried. repeat split; try congruence; try lia.
  exists (c1 ++ c2). rewrite L2, L1, app_assoc, length_app.
  repeat split; auto. apply Forall_app. auto.
Qed.

Lemma random_choice_state W {A} (seq : list A) x s s' :
  random_choice W seq s = (Ok x, s') ->
  py_pos s' = S (py_pos s) /\ sim_seed s' = sim_seed s
  /\ sim_pos s' = sim_pos s /\ sim_log s' = sim_log s.
Proof.
  destruct seq as [|y seq]; unfold random_choice; [discriminate|].
  intros H. split_bind H as k s1 E.
  unfold random_raw in E. inversion E; subst. clear E.
  unfold index in H. destruct (nth_error _ _); [|discriminate].
  apply ret_ok in H. destruct H as [_ <-]. simpl. auto.
Qed.

Lemma index_state {A} (l : list A) i x s s' :
  index l i s = (Ok x, s') -> s' = s.
Proof.
  unfold index. destruct (nth_error l i); [|discriminate].
  intros H. apply ret_ok in H. now destruct H.
Qed.

Lemma leg_body_queried W nav_pts {A} (seq : list A)
      (pick : A -> nat * nat * float) s a s' :
  (c <- random_choice W seq ;;
   src <- index nav_pts (fst (fst (pick c))) ;;
   dst <- index nav_pts (snd (fst (pick c))) ;;
   d <- sim_geodesic_distance W src dst ;;
   ret {| dr_i := fst (fst (pick c)); dr_j := snd (fst (pick c));
          dr_euc := snd (pick c);
          dr_src := src; dr_dst := dst; dr_d := d |})%py s = (Ok a, s') ->
  queried s s' 1.
Proof.
  intros H. split_bind H as c s1 Ec. apply random_choice_state in Ec.
  split_bind H as p s2 Ep. apply index_state in Ep. subst s2.
  split_bind H as q s3 Eq. apply index_state in Eq. subst s3.
  split_bind H as d s4 Ed. apply ret_ok in H. destruct H as [_ <-].
  unfold sim_geodesic_distance, log_call, bind, ret in Ed.
  inversion Ed; subst. clear Ed.
  destruct Ec as (P & S1 & Q & L). unfold queried. simpl.
  repeat split; try congruence; try lia.
  exists [CallGeodesicDistance p q]. rewrite L.
  repeat split; auto. repeat constructor. eauto.
Qed.

Lemma first_leg_body_queried W nav_pts candidates s a s' :
  first_leg_body W nav_pts candidates s = (Ok a, s') -> queried s s' 1.
Proof.
  intros H. eapply (leg_body_queried W nav_pts candidates (fun c => c)).
  exact H.
Qed.

Lemma next_leg_body_queried W nav_pts last nxt s a s' :
  next_leg_body W nav_pts last nxt s = (Ok a, s') -> queried s s' 1.
Proof.
  intros H.
  eapply (leg_body_queried W nav_pts nxt
            (fun c => ((last, fst c), snd c))).
  exact H.
Qed.

Lemma retry_queried {A} (body : M A) (again : A -> bool) :
  (forall s a s', body s = (Ok a, s') -> queried s s' 1) ->
  forall fuel s rej a s',
    retry fuel body again s = (Ok (rej, a), s') ->
    queried s s' (S (List.length rej)).
Proof.
  intros Hb. induction fuel as [|fuel IH]; intros s rej a s' H; simpl in H.
  - discriminate.
  - split_bind H as x s1 Ex. apply Hb in Ex. destruct (again x).
    + split_bind H as y s2 Ey. destruct y as [rej0 r].
      apply ret_ok in H. destruct H as [H <-]. inversion H; subst.
      apply IH in Ey. simpl.
      apply (queried_trans s s1 s2 1 (S (List.length rej0))); auto.
    + apply ret_ok in H. destruct H as [H <-]. inversion H; subst.
      exact Ex.
Qed.

Lemma chain_queried W fuel nav_pts candidates min_d max_d n :
  forall w s w' s',
    chain W fuel nav_pts candidates min_d max_d n w s = (Ok w', s') ->
    exists d,
      queried s s' d
      /\ (List.length (w_legs w') + List.length (w_rejects w')
          = List.length (w_legs w) + List.length (w_rejects w) + d)%nat.
Proof.
  induction n as [|n IH]; intros w s w' s' H; simpl in H.
  - apply ret_ok in H. destruct H as [<- <-]. exists 0%nat.
    split; [apply queried_refl|lia].
  - split_bind H as x s1 Ex. destruct x as [rej a].
    apply retry_queried in Ex.
    2:{ intros. eapply next_leg_body_queried; eauto. }
    apply IH in H. destruct H as (d & Hq & Hlen). simpl in Hlen.
    rewrite !length_app in Hlen. simpl in Hlen.
    exists (S (List.length rej) + d)%nat. split.
    + eapply queried_trans; eauto.
    + lia.
Qed.

(** X15: sampling one episode takes one draw from the global generator
    and one geodesic-distance query per pass of its loops, accepted or
    rejected, and touches nothing else: no point is sampled and the
    simulator's seed stays as it was. *)
Theorem walk_takes_one_draw_and_one_query_per_pass
        W fuel nav_pts candidates min_d max_d m s w s' :
  episode_walk W fuel nav_pts candidates min_d max_d m s = (Ok w, s') ->
  queried s s' (List.length (w_legs w) + List.length (w_rejects w)).
Proof.
  unfold episode_walk. intros H.
  split_bind H as x s1 Ex. destruct x as [rej a].
  apply retry_queried in Ex.
  2:{ intros. eapply first_leg_body_queried; eauto. }
  apply chain_queried in H. destruct H as (d & Hq & Hlen).
  simpl in Hlen.
  replace (List.length (w_legs w) + List.length (w_rejects w))%nat
    with (S (List.length rej) + d)%nat by lia.
  eapply queried_trans; eauto.
Qed.

(** The corridor walk: three legs and two rejected draws, five draws and
    five queries. *)
Lemma walk_takes_one_draw_and_one_query_per_pass_witness :
  exists w s',
    episode_walk (Corridor.world Corridor.tape Corridor.detour) 10
                 (Corridor.points 8)
                 (Corridor.very_easy
                    (Corridor.world Corridor.tape Corridor.detour) 8)
                 (Fin 1) (Fin 3) 3 Corridor.start = (Ok w, s')
    /\ py_pos s' = 5%nat
    /\ queried Corridor.start s'
               (List.length (w_legs w) + List.length (w_rejects w)).
Proof.
  eexists. eexists. split; [vm_compute; reflexivity|].
  split; [reflexivity|].
  eapply (walk_takes_one_draw_and_one_query_per_pass
            (Corridor.world Corridor.tape Corridor.detour) 10%nat
            (Corridor.points 8)
            (Corridor.very_easy
               (Corridor.world Corridor.tape Corridor.detour) 8)
            (Fin 1) (Fin 3) 3 Corridor.start).
  vm_compute. reflexivity.
Defined.


(** ** The first leg *)

Lemma chain_legs_extend W fuel nav_pts candidates min_d max_d n :
  forall w s w' s',
    chain W fuel nav_pts candidates min_d max_d n w s = (Ok w', s') ->
    exists more, w_legs w' = w_legs w ++ more.
Proof.
  induction n as [|n IH]; intros w s w' s' H; simpl in H.
  - apply ret_ok in H. destruct H as [<- _]. exists [].
    now rewrite app_nil_r.
  - split_bind H as x s1 Ex. destruct x as [rej a].
    apply IH in H. destruct H as [more H]. simpl in H.
    exists ([a] ++ more). now rewrite app_assoc.
Qed.

(** X17: with the candidates of main, the first leg of every episode is
    drawn in the stored orientation of its pair: it runs from the point
    sampled earlier to the one sampled later.  Only chained legs may run
    the other way. *)
Theorem first_leg_runs_in_stored_orientation
        W fuel nav_pts min_d max_d n euc_dists m s w s' :
  episode_walk W fuel nav_pts
               (filter_candidates min_d max_d (all_pairs n) euc_dists)
               min_d max_d m s = (Ok w, s') ->
  exists first rest,
    w_legs w = first :: rest
    /\ In ((dr_i first, dr_j first), dr_euc first)
          (filter_candidates min_d max_d (all_pairs n) euc_dists)
    /\ (dr_i first < dr_j first)%nat.
Proof.
  unfold episode_walk. intros H.
  split_bind H as x s1 Ex. destruct x as [rej a].
  apply (retry_ok (fun x => In ((dr_i x, dr_j x), dr_euc x)
                    (filter_candidates min_d max_d (all_pairs n) euc_dists)
                  /\ located W nav_pts x)) in Ex.
  2:{ intros. eapply first_leg_body_ok; eauto. }
  destruct Ex as [[(Hin & _) _] _].
  apply chain_legs_extend in H. destruct H as [more H]. simpl in H.
  exists a, more. repeat split; auto.
  apply filter_candidates_ordered in Hin. lia.
Qed.

(** The corridor walk 0 -> 2 -> 3 -> 1: the first leg goes up, the last
    one down. *)
Lemma first_leg_runs_in_stored_orientation_witness :
  exists w s',
    episode_walk (Corridor.world Corridor.tape Corridor.detour) 10
                 (Corridor.points 8)
                 (Corridor.very_easy
                    (Corridor.world Corridor.tape Corridor.detour) 8)
                 (Fin 1) (Fin 3) 3 Corridor.start = (Ok w, s')
    /\ map (fun a => (dr_i a, dr_j a)) (w_legs w)
       = [(0, 2); (2, 3); (3, 1)]%nat
    /\ exists first rest,
        w_legs w = first :: rest
        /\ In ((dr_i first, dr_j first), dr_euc first)
              (Corridor.very_easy
                 (Corridor.world Corridor.tape Corridor.detour) 8)
        /\ (dr_i first < dr_j first)%nat.
Proof.
  eexists. eexists. split; [vm_compute; reflexivity|].
  split; [reflexivity|].
  eapply (first_leg_runs_in_stored_orientation
            (Corridor.world Corridor.tape Corridor.detour) 10%nat
            (Corridor.points 8) (Fin 1) (Fin 3) 8
            (pdist (Corridor.world Corridor.tape Corridor.detour)
                   (Corridor.points 8)) 3 Corridor.start).
  vm_compute. reflexivity.
Defined.
